(** * The bank-account web application (app.py): model and verification

    The application is a thin Flask program: five routes, one validation
    helper, and calls into three libraries (the [decimal] module of the
    Python standard library, the psycopg database driver, and Flask-Limiter).
    The handlers are embedded as they are written; the library calls they
    make are embedded next to them:

    - [decimal]: the string constructor of [Decimal] and its comparison
      with the integer 0, after [_pydecimal.py], with the bounds of the C
      implementation on exponents;
    - [pg]: the [account] and [depositor] tables, the five statements of
      the application, autocommit and explicit transactions, and commands
      that fail;
    - [limiter]: the limits configured in app.py, the fixed-window counters
      and the resolution of the limits of a route.

    Strings are sequences of code points below 256, a table is the list of
    its rows, and the time of a request is a number of milliseconds. *)

From Stdlib Require Import ZArith NArith QArith Qpower Ascii String List Lia.
From Stdlib Require Import OrderedTypeEx Permutation Sorted.
From stdpp Require Import base gmap strings list sorting.
Import ListNotations.

Close Scope Q_scope.
Local Open Scope string_scope.
Local Open Scope nat_scope.
Local Open Scope list_scope.

(** ** Exceptions and results of Python calls *)

Inductive exception :=
| InvalidOperation                (* decimal.InvalidOperation *)
| ValueError (msg : string)
| BadRequestKeyError (key : string)  (* request.form[...] on a missing field *)
| DatabaseError                   (* psycopg.Error raised by a command *)
| RateLimitExceeded
| NotFound.

Inductive outcome (A : Type) :=
| Returns (a : A)
| Raises (e : exception).
Arguments Returns {A} a.
Arguments Raises {A} e.

(** ** Python strings

    A [str] is modelled by a Rocq [string] read as a sequence of code points
    below 256. *)

Module pystr.

Definition ord (c : ascii) : nat := nat_of_ascii c.

(** [str.isspace] on one code point below 256. *)
Definition isspace (c : ascii) : bool :=
  let n := ord c in
  ((9 <=? n) && (n <=? 13)) || ((28 <=? n) && (n <=? 32))
  || (n =? 133) || (n =? 160).

(** The regular-expression class [\d] on one code point below 256. *)
Definition isdigit (c : ascii) : bool :=
  let n := ord c in (48 <=? n) && (n <=? 57).

(** Case folding as used by [re.IGNORECASE] on the letters of the
    patterns below. *)
Definition lower (c : ascii) : ascii :=
  let n := ord c in
  if (65 <=? n) && (n <=? 90) then ascii_of_nat (n + 32) else c.

Fixpoint lstrip (l : list ascii) : list ascii :=
  match l with
  | c :: l' => if isspace c then lstrip l' else l
  | [] => []
  end.

Definition rstrip (l : list ascii) : list ascii := rev (lstrip (rev l)).

Definition strip (l : list ascii) : list ascii := rstrip (lstrip l).

(** [s.replace("_", "")] *)
Definition remove_underscores (l : list ascii) : list ascii :=
  List.filter (fun c => negb (Ascii.eqb c "_")) l.

Definition digit_value (c : ascii) : N := N.of_nat (ord c - 48).

(** [int(s or '0')] for a string of digits. *)
Definition int_digits (l : list ascii) : N :=
  fold_left (fun acc c => (10 * acc + digit_value c)%N) l 0%N.

(** [int(s)] for a string matching [[-+]?\d+]. *)
Definition int_signed (l : list ascii) : Z :=
  match l with
  | c :: d =>
      if Ascii.eqb c "-" then (- Z.of_N (int_digits d))%Z
      else if Ascii.eqb c "+" then Z.of_N (int_digits d)
      else Z.of_N (int_digits l)
  | [] => 0%Z
  end.

End pystr.

(** ** The [decimal] module

    The module is followed in its pure-Python form, [_pydecimal.py]. The C
    implementation, which [from decimal import Decimal] loads where it is
    built, differs from it on strings in one point that is modelled too:
    the conversion is exact or fails, so a finite number whose exponent is
    out of the bounds [MAX_EMAX] and [MIN_ETINY] (here those of a 64-bit
    build) raises [InvalidOperation]. *)

Module decimal.
Import pystr.

(** The named groups of the regular expression [_parser]. *)
Record match_groups := {
  g_sign : option ascii;
  g_int : option (list ascii);
  g_frac : option (list ascii);
  g_exp : option (list ascii);
  g_signal : option ascii;
  g_diag : option (list ascii)
}.

(** [\d*], greedy: the digits matched and the rest of the input. *)
Fixpoint digits_prefix (l : list ascii) : list ascii * list ascii :=
  match l with
  | c :: l' =>
      if isdigit c
      then let (d, r) := digits_prefix l' in (c :: d, r)
      else ([], l)
  | [] => ([], [])
  end.

(** [[-+]?] *)
Definition opt_sign (l : list ascii) : option ascii * list ascii :=
  match l with
  | c :: l' =>
      if Ascii.eqb c "-" || Ascii.eqb c "+" then (Some c, l') else (None, l)
  | [] => (None, [])
  end.

(** The lookahead [(?=\d|\.\d)]. *)
Definition number_lookahead (l : list ascii) : bool :=
  match l with
  | c :: l' =>
      isdigit c
      || (Ascii.eqb c "." && match l' with d :: _ => isdigit d | [] => false end)
  | [] => false
  end.

(** The optional fractional part: a dot and the group [frac] of digits. *)
Definition opt_fraction (l : list ascii) : option (list ascii) * list ascii :=
  match l with
  | c :: l' =>
      if Ascii.eqb c "."
      then let (f, r) := digits_prefix l' in (Some f, r)
      else (None, l)
  | [] => (None, [])
  end.

(** [(E(?P<exp>[-+]?\d+))?\Z]: [None] when the rest of the input does not
    match, [Some g] with the group [exp] when it does. *)
Definition opt_exponent_end (l : list ascii) : option (option (list ascii)) :=
  match l with
  | [] => Some None
  | c :: l' =>
      if Ascii.eqb (lower c) "e" then
        let (s, r) := opt_sign l' in
        let (d, r') := digits_prefix r in
        match d, r' with
        | _ :: _, [] => Some (Some (match s with Some c' => c' :: d | None => d end))
        | _, _ => None
        end
      else None
  end.

Definition lowered (l : list ascii) : string :=
  string_of_list_ascii (map lower l).

(** [(?P<signal>s)?] *)
Definition opt_signal (l : list ascii) : option ascii * list ascii :=
  match l with
  | c :: l' => if Ascii.eqb (lower c) "s" then (Some c, l') else (None, l)
  | [] => (None, [])
  end.

(** The letters NaN, the group [diag] of digits, and the end of input. *)
Definition nan_diag_end (l : list ascii) : option (list ascii) :=
  match l with
  | a :: b :: c :: d =>
      if String.eqb (lowered [a; b; c]) "nan" && forallb isdigit d
      then Some d else None
  | _ => None
  end.

Definition no_groups (sign : option ascii) : match_groups :=
  {| g_sign := sign; g_int := None; g_frac := None; g_exp := None;
     g_signal := None; g_diag := None |}.

(** First alternative: a number with at least one digit. *)
Definition number (sign : option ascii) (body : list ascii) : option match_groups :=
  let (i, r1) := digits_prefix body in
  let (frac, r2) := opt_fraction r1 in
  match opt_exponent_end r2 with
  | Some e =>
      Some {| g_sign := sign; g_int := Some i; g_frac := frac; g_exp := e;
              g_signal := None; g_diag := None |}
  | None => None
  end.

(** Second alternative: [Inf(inity)?] and the end of input. *)
Definition infinity (body : list ascii) : bool :=
  String.eqb (lowered body) "inf" || String.eqb (lowered body) "infinity".

(** Third alternative: an optionally signaling NaN. *)
Definition nan (sign : option ascii) (body : list ascii) : option match_groups :=
  let (signal, r) := opt_signal body in
  match nan_diag_end r with
  | Some d =>
      Some {| g_sign := sign; g_int := None; g_frac := None; g_exp := None;
              g_signal := signal; g_diag := Some d |}
  | None => None
  end.

(** The regular expression [_parser], matched against the whole input. *)
Definition _parser (l : list ascii) : option match_groups :=
  let (sign, body) := opt_sign l in
  if number_lookahead body then number sign body
  else if infinity body then Some (no_groups sign)
  else nan sign body.

(** The field [_exp] of a [Decimal]: an integer, or one of the letters
    ['F'] (infinity), ['n'] (quiet NaN), ['N'] (signaling NaN). *)
Inductive exponent :=
| Exp (e : Z)
| Exp_F
| Exp_n
| Exp_N.

(** A [Decimal] instance; [_sign] is [true] for 1. The coefficient [_int],
    a string of digits without leading zeros in Python, is kept as a
    number. *)
Record Decimal := {
  _sign : bool;
  _int : N;
  _exp : exponent
}.

Definition _is_special (d : Decimal) : bool :=
  match _exp d with Exp _ => false | _ => true end.

Definition or_empty (o : option (list ascii)) : list ascii :=
  match o with Some l => l | None => [] end.

(** The constants [decimal.MAX_EMAX] and [decimal.MIN_ETINY]. *)
Definition MAX_EMAX : Z := 999999999999999999.
Definition MIN_ETINY : Z := (-1999999999999999997)%Z.

Fixpoint lstrip_zeros (l : list ascii) : list ascii :=
  match l with
  | c :: l' => if Ascii.eqb c "0" then lstrip_zeros l' else l
  | [] => []
  end.

(** The number of digits of the coefficient [str(int(digits))]. *)
Definition coefficient_length (digits : list ascii) : Z :=
  Z.max 1 (Z.of_nat (length (lstrip_zeros digits))).

(** The conversion of the C implementation is exact when the adjusted
    exponent is at most [MAX_EMAX] and the exponent at least [MIN_ETINY]. *)
Definition exact (digits : list ascii) (exp : Z) : bool :=
  ((exp + coefficient_length digits - 1 <=? MAX_EMAX)
   && (MIN_ETINY <=? exp))%Z.

(** The groups of a match are those of a number that converts exactly, or
    of an infinity or a NaN. *)
Definition fits (m : match_groups) : bool :=
  match g_int m with
  | Some intpart =>
      let fracpart := or_empty (g_frac m) in
      let exp := match g_exp m with Some e => int_signed e | None => 0%Z end in
      exact (intpart ++ fracpart) (exp - Z.of_nat (length fracpart))
  | None => true
  end.

(** [Decimal.__new__(cls, value)] for a [str] value. *)
Definition __new__ (value : string) : outcome Decimal :=
  match _parser (remove_underscores (strip (list_ascii_of_string value))) with
  | None => Raises InvalidOperation
  | Some m =>
      let sign :=
        match g_sign m with
        | Some c => Ascii.eqb c "-"
        | None => false
        end in
      match g_int m with
      | Some intpart =>
          let fracpart := or_empty (g_frac m) in
          let exp := match g_exp m with Some e => int_signed e | None => 0%Z end in
          if exact (intpart ++ fracpart) (exp - Z.of_nat (length fracpart)) then
            Returns {| _sign := sign;
                       _int := int_digits (intpart ++ fracpart);
                       _exp := Exp (exp - Z.of_nat (length fracpart)) |}
          else Raises InvalidOperation
      | None =>
          match g_diag m with
          | Some diag =>
              Returns {| _sign := sign;
                         _int := int_digits diag;
                         _exp := match g_signal m with
                                 | Some _ => Exp_N
                                 | None => Exp_n
                                 end |}
          | None =>
              Returns {| _sign := sign; _int := 0%N; _exp := Exp_F |}
          end
      end
  end.

(** [_isinfinity]: 0, 1 or -1. *)
Definition _isinfinity (d : Decimal) : Z :=
  match _exp d with
  | Exp_F => if _sign d then (-1)%Z else 1%Z
  | _ => 0%Z
  end.

(** [_compare_check_nans(self, other)] for a finite [other]. *)
Definition _compare_check_nans (d : Decimal) : outcome Z :=
  match _exp d with
  | Exp_N => Raises InvalidOperation
  | Exp_n => Raises InvalidOperation
  | _ => Returns 0%Z
  end.

(** [self._cmp(other)] where [other] is [Decimal(0)], for a [self] that is
    not a NaN: the branches of [_cmp] taken for that [other]. *)
Definition _cmp_zero (d : Decimal) : Z :=
  if _is_special d then
    let self_inf := _isinfinity d in
    let other_inf := 0%Z in
    if (self_inf =? other_inf)%Z then 0%Z
    else if (self_inf <? other_inf)%Z then (-1)%Z
    else 1%Z
  else if (_int d =? 0)%N then 0%Z
  else if _sign d then (-1)%Z else 1%Z.

(** [self < 0]: [__lt__] with the integer 0 as [other]. *)
Definition __lt__zero (d : Decimal) : outcome bool :=
  match _compare_check_nans d with
  | Raises e => Raises e
  | Returns ans =>
      if negb (ans =? 0)%Z then Returns false
      else Returns (_cmp_zero d <? 0)%Z
  end.

(** The number a finite [Decimal] denotes: (-1)^sign * int * 10^exp. *)
Definition value (d : Decimal) : option Q :=
  match _exp d with
  | Exp e =>
      let m := inject_Z (Z.of_N (_int d)) in
      let p := Qpower (inject_Z 10) e in
      Some (if _sign d then Qopp (Qmult m p) else Qmult m p)
  | _ => None
  end.

End decimal.

(** ** The validation helper of app.py *)

(** [is_decimal(s)]: [try: Decimal(s); return True] with
    [except InvalidOperation: return False]. *)
Definition is_decimal (s : string) : outcome bool :=
  match decimal.__new__ s with
  | Returns _ => Returns true
  | Raises InvalidOperation => Returns false
  | Raises e => Raises e
  end.

(** ** The database: tables, commands, transactions

    The schema is owned by the database, not by app.py. The model keeps the
    three columns of [account] that the application names and, for
    [depositor], the [account_number] column it names plus one column for
    the customer the row refers to. A table is the list of its rows. *)

Module Account.
Record row := {
  account_number : string;
  branch_name : string;
  balance : decimal.Decimal
}.
End Account.

Module Depositor.
Record row := {
  customer_name : string;
  account_number : string
}.
End Depositor.

Module pg.

Record database := {
  account : list Account.row;
  depositor : list Depositor.row
}.

(** The five SQL statements of app.py with their parameters. *)
Inductive statement :=
| SELECT_accounts
| SELECT_account (account_number : string)
| UPDATE_account (account_number : string) (balance : string)
| DELETE_depositor (account_number : string)
| DELETE_account (account_number : string).

(** What the driver sends to the server on a connection. *)
Inductive command :=
| BEGIN
| COMMIT
| ROLLBACK
| Execute (s : statement).

(** The result of a statement as the cursor holds it. *)
Record result := {
  rows : list Account.row;
  rowcount : nat
}.

(** [WHERE account_number = %(account_number)s] *)
Definition account_where (k : string) (r : Account.row) : bool :=
  String.eqb (Account.account_number r) k.

Definition depositor_where (k : string) (r : Depositor.row) : bool :=
  String.eqb (Depositor.account_number r) k.

(** [ORDER BY account_number DESC]: the keys are compared as strings,
    code point by code point; [desc r1 r2] says that [r1] may come
    before [r2]. *)
Definition desc : relation Account.row :=
  fun r1 r2 =>
    String.leb (Account.account_number r2) (Account.account_number r1) = true.

#[global] Instance desc_dec : RelDecision desc :=
  fun r1 r2 =>
    decide (String.leb (Account.account_number r2) (Account.account_number r1) = true).

Definition order_by_desc (l : list Account.row) : list Account.row :=
  merge_sort desc l.

(** The server reading the text of a parameter as a [numeric]. *)
Definition numeric_in (s : string) : option decimal.Decimal :=
  match decimal.__new__ s with
  | Returns d => Some d
  | Raises _ => None
  end.

Definition set_balance (b : decimal.Decimal) (r : Account.row) : Account.row :=
  {| Account.account_number := Account.account_number r;
     Account.branch_name := Account.branch_name r;
     Account.balance := b |}.

(** [UPDATE account SET balance = v WHERE account_number = k] *)
Definition update_balance (k : string) (v : decimal.Decimal) (db : database)
    : database :=
  {| account :=
       map (fun r => if account_where k r then set_balance v r else r) (account db);
     depositor := depositor db |}.

(** One statement on a database state: the new state and the result, or
    [None] when the statement is in error. *)
Definition run (s : statement) (db : database) : option (database * result) :=
  match s with
  | SELECT_accounts =>
      let rs := order_by_desc (account db) in
      Some (db, {| rows := rs; rowcount := length rs |})
  | SELECT_account k =>
      let rs := List.filter (account_where k) (account db) in
      Some (db, {| rows := rs; rowcount := length rs |})
  | UPDATE_account k b =>
      match numeric_in b with
      | Some v =>
          Some (update_balance k v db,
                {| rows := [];
                   rowcount := length (List.filter (account_where k) (account db)) |})
      | None => None
      end
  | DELETE_depositor k =>
      Some ({| account := account db;
               depositor :=
                 List.filter (fun r => negb (depositor_where k r)) (depositor db) |},
            {| rows := [];
               rowcount := length (List.filter (depositor_where k) (depositor db)) |})
  | DELETE_account k =>
      Some ({| account := List.filter (fun r => negb (account_where k r)) (account db);
               depositor := depositor db |},
            {| rows := [];
               rowcount := length (List.filter (account_where k) (account db)) |})
  end.

(** The database server.

    - [tables]: the committed state;
    - [faults]: for each coming command, whether the server or the link
      fails on it (constraint violation, lost connection, ...); commands
      beyond the end of the list do not fail;
    - [sent]: the commands received so far, oldest first. *)
Record server := {
  tables : database;
  faults : list bool;
  sent : list command
}.

(** A connection taken from the pool: the server behind it and the
    working state of the transaction it has open, if any. *)
Record connection := {
  link : server;
  in_transaction : option database
}.

Definition next_fault (s : server) : bool :=
  match faults s with
  | f :: _ => f
  | [] => false
  end.

(** The first [n] coming commands do not fail. *)
Definition healthy (n : nat) (s : server) : Prop :=
  Forall (fun f => f = false) (firstn n (faults s)).

(** The connection after one more command: the command is recorded and
    its fault flag consumed. *)
Definition record (c : command) (tb : database) (tx : option database)
    (w : connection) : connection :=
  {| link := {| tables := tb;
                faults := tl (faults (link w));
                sent := sent (link w) ++ [c] |};
     in_transaction := tx |}.

(** Sending one command. A failed command changes no table; a statement
    outside a transaction is committed at once (autocommit); inside a
    transaction it works on the transaction's state, which [COMMIT]
    publishes and [ROLLBACK] or a failed [COMMIT] drops. *)
Definition send (c : command) (w : connection) : outcome result * connection :=
  let nothing := {| rows := []; rowcount := 0 |} in
  let tb := tables (link w) in
  if next_fault (link w) then
    (Raises DatabaseError,
     record c tb
            (match c with COMMIT | ROLLBACK => None | _ => in_transaction w end) w)
  else
    match c with
    | BEGIN => (Returns nothing, record c tb (Some tb) w)
    | COMMIT =>
        (Returns nothing,
         record c (match in_transaction w with Some db => db | None => tb end) None w)
    | ROLLBACK => (Returns nothing, record c tb None w)
    | Execute s =>
        match in_transaction w with
        | Some db =>
            match run s db with
            | Some (db', r) => (Returns r, record c tb (Some db') w)
            | None => (Raises DatabaseError, record c tb (Some db) w)
            end
        | None =>
            match run s tb with
            | Some (db', r) => (Returns r, record c db' None w)
            | None => (Raises DatabaseError, record c tb None w)
            end
        end
    end.

End pg.

(** ** Computations with a state and exceptions *)

Definition M (St A : Type) : Type := St -> outcome A * St.

Definition ret {St A} (a : A) : M St A := fun w => (Returns a, w).

Definition raise {St A} (e : exception) : M St A := fun w => (Raises e, w).

Definition bind {St A B} (m : M St A) (k : A -> M St B) : M St B :=
  fun w =>
    match m w with
    | (Returns a, w') => k a w'
    | (Raises e, w') => (Raises e, w')
    end.

(** A call that touches no state. *)
Definition lift {St A} (o : outcome A) : M St A := fun w => (o, w).

Notation "x <- m ;; k" := (bind m (fun x => k))
  (at level 100, m at next level, right associativity).
Notation "m ;;; k" := (bind m (fun _ => k))
  (at level 100, right associativity).

(** [with pool.connection() as conn: body]. The pool is opened with
    [autocommit=True]: the connection handed out is idle, with no
    transaction open. On leaving the block a transaction still open is
    committed, or rolled back when the body raised. *)
Definition pool_connection {A} (body : M pg.connection A) : M pg.server A :=
  fun s =>
    let (o, c) := body {| pg.link := s; pg.in_transaction := None |} in
    match pg.in_transaction c with
    | None => (o, pg.link c)
    | Some _ =>
        match o with
        | Returns a =>
            match pg.send pg.COMMIT c with
            | (Returns _, c') => (Returns a, pg.link c')
            | (Raises e, c') => (Raises e, pg.link c')
            end
        | Raises e => (Raises e, pg.link (snd (pg.send pg.ROLLBACK c)))
        end
    end.

(** [cur.execute(statement, params)] *)
Definition execute (s : pg.statement) : M pg.connection pg.result :=
  pg.send (pg.Execute s).

(** [with conn.transaction(): body]. [BEGIN] on entry; [COMMIT] when the
    body ends normally; when the body raises, [ROLLBACK] is sent and the
    exception of the body is raised again, whatever the outcome of the
    [ROLLBACK]. *)
Definition transaction {A} (body : M pg.connection A) : M pg.connection A :=
  fun w =>
    match pg.send pg.BEGIN w with
    | (Raises e, w1) => (Raises e, w1)
    | (Returns _, w1) =>
        match body w1 with
        | (Returns a, w2) =>
            match pg.send pg.COMMIT w2 with
            | (Returns _, w3) => (Returns a, w3)
            | (Raises e, w3) => (Raises e, w3)
            end
        | (Raises e, w2) => (Raises e, snd (pg.send pg.ROLLBACK w2))
        end
    end.

(** [cur.fetchall()] and [cur.fetchone()] *)
Definition fetchall (r : pg.result) : list Account.row := pg.rows r.

Definition fetchone (r : pg.result) : option Account.row := head (pg.rows r).

(** ** Responses *)

Inductive template_context :=
| accounts (l : list Account.row)
| account (a : option Account.row).

Inductive response :=
| render_template (name : string) (context : template_context)
| redirect (endpoint : string)
| jsonify (payload : list (string * string)).

(** ** The view functions of app.py *)

Definition account_index : M pg.server response :=
  found <- pool_connection (
    r <- execute pg.SELECT_accounts ;;
    ret (fetchall r)) ;;
  ret (render_template "account/index.html" (accounts found)).

Definition account_update_view (account_number : string) : M pg.server response :=
  found <- pool_connection (
    r <- execute (pg.SELECT_account account_number) ;;
    ret (fetchone r)) ;;
  ret (render_template "account/update.html" (account found)).

(** [request.form["balance"]] *)
Definition form_get {St} (form : gmap string string) (key : string)
    : M St string :=
  match form !! key with
  | Some v => ret v
  | None => raise (BadRequestKeyError key)
  end.

Definition account_update_save (account_number : string)
    (form : gmap string string) : M pg.server response :=
  balance <- form_get form "balance" ;;
  (if String.eqb balance "" then raise (ValueError "Balance is required.")
   else ret tt) ;;;
  ok <- lift (is_decimal balance) ;;
  (if negb ok then raise (ValueError "Balance is required to be decimal.")
   else ret tt) ;;;
  d <- lift (decimal.__new__ balance) ;;
  negative <- lift (decimal.__lt__zero d) ;;
  (if negative then raise (ValueError "Balance is required to be positive.")
   else ret tt) ;;;
  pool_connection (
    execute (pg.UPDATE_account account_number balance) ;;;
    ret tt) ;;;
  ret (redirect "account_index").

Definition account_delete (account_number : string) : M pg.server response :=
  pool_connection (
    transaction (
      execute (pg.DELETE_depositor account_number) ;;;
      execute (pg.DELETE_account account_number) ;;;
      ret tt)) ;;;
  ret (redirect "account_index").

Definition ping : M pg.server response :=
  ret (jsonify [("message", "pong!"); ("status", "success")]).

(** ** Flask-Limiter: limits, counters, resolution

    [Limiter(get_remote_address, app=app, default_limits=[...],
    storage_uri=...)] with the other arguments at their defaults: the
    fixed-window strategy, and evaluation that stops at the first limit
    breached. Time is counted in milliseconds. *)

Module limiter.

Inductive granularity := second | minute | hour | day.

Definition seconds (g : granularity) : N :=
  match g with
  | second => 1
  | minute => 60
  | hour => 3600
  | day => 86400
  end%N.

Definition granularity_name (g : granularity) : string :=
  match g with
  | second => "second"
  | minute => "minute"
  | hour => "hour"
  | day => "day"
  end.

(** A parsed limit string: ["200 per day"] is [{| amount := 200;
    multiples := 1; per := day |}]. *)
Record limit := {
  amount : nat;
  multiples : nat;
  per : granularity
}.

#[global] Instance granularity_eq_dec : EqDecision granularity.
Proof. solve_decision. Defined.

#[global] Instance limit_eq_dec : EqDecision limit.
Proof. solve_decision. Defined.

(** [get_expiry]: the length of the window, here in milliseconds. *)
Definition get_expiry (l : limit) : N :=
  (N.of_nat (multiples l) * seconds (per l) * 1000)%N.

(** [default_limits=["200 per day", "50 per hour"]] *)
Definition default_limits : list limit :=
  [ {| amount := 200; multiples := 1; per := day |};
    {| amount := 50; multiples := 1; per := hour |} ].

(** A limit attached to a view function by [@limiter.limit(...)]. The
    keyword argument [override_defaults] of the decorator is [True] when
    not given, as in app.py. *)
Record route_limit := {
  the_limit : limit;
  override_defaults : bool
}.

Definition limit_decorator (l : limit) : route_limit :=
  {| the_limit := l; override_defaults := true |}.

(** What the decorators of app.py register for each view function. *)
Inductive marking :=
| decorated (ls : list route_limit)
| exempt
| undecorated.

(** The identifiers of a counter: the key function's value (the remote
    address), the scope (the endpoint), and the limit. *)
Definition key : Type := string * string * (nat * nat * string).

Definition key_for (l : limit) (address scope : string) : key :=
  (address, scope, (amount l, multiples l, granularity_name (per l))).

(** The memory storage: for each key the number of hits of the current
    window and the time at which the window ends. *)
Abbreviation storage := (gmap key (nat * N)).

(** The counter after one more hit at time [now]: a counter whose window
    has ended is dropped first, and the window of a new counter starts
    now. *)
Definition bump (o : option (nat * N)) (expiry now : N) : nat * N :=
  match o with
  | Some (c, e) => if (e <=? now)%N then (1, (now + expiry)%N) else (S c, e)
  | None => (1, (now + expiry)%N)
  end.

(** [MemoryStorage.incr]: the new count and the storage. *)
Definition incr (k : key) (expiry now : N) (s : storage) : nat * storage :=
  let v := bump (s !! k) expiry now in
  (fst v, <[k := v]> s).

(** [FixedWindowRateLimiter.hit] *)
Definition hit (l : limit) (address scope : string) (now : N) (s : storage)
    : bool * storage :=
  let (c, s') := incr (key_for l address scope) (get_expiry l) now s in
  (c <=? amount l, s').

(** [sorted(limits, key=lambda x: x.limit)]: a limit is smaller than
    another when its granularity is shorter; the sort is stable. *)
Fixpoint insert_limit (x : limit) (l : list limit) : list limit :=
  match l with
  | [] => [x]
  | y :: l' =>
      if (seconds (per x) <=? seconds (per y))%N
      then x :: y :: l'
      else y :: insert_limit x l'
  end.

Definition sorted (l : list limit) : list limit :=
  fold_right insert_limit [] l.

(** The loop of [__evaluate_limits] over the sorted limits: every limit
    is hit in turn until one is breached. *)
Fixpoint evaluate (ls : list limit) (address scope : string) (now : N)
    (s : storage) : bool * storage :=
  match ls with
  | [] => (true, s)
  | l :: ls' =>
      let (ok, s') := hit l address scope now s in
      if ok then evaluate ls' address scope now s' else (false, s')
  end.

(** [LimitManager.resolve_limits] for an application without blueprints
    and without application-wide limits: the default limits are added
    only when no limit of the route overrides them. *)
Definition resolve_limits (m : marking) : list limit :=
  match m with
  | exempt => []
  | undecorated => default_limits
  | decorated ls =>
      if forallb (fun rl => negb (override_defaults rl)) ls
      then map the_limit ls ++ default_limits
      else map the_limit ls
  end.

End limiter.

(** ** Routing and dispatch *)

Module Endpoint.
Inductive t :=
| account_index
| account_update_view
| account_update_save
| account_delete
| ping.

Definition name (e : t) : string :=
  match e with
  | account_index => "account_index"
  | account_update_view => "account_update_view"
  | account_update_save => "account_update_save"
  | account_delete => "account_delete"
  | ping => "ping"
  end.
End Endpoint.

Inductive http_method := GET | POST.

(** A request: its method, the segments of its path
    ([/accounts/A-101/update] is [["accounts"; "A-101"; "update"]]), its
    form fields, the address of the client and the time of arrival. *)
Record request := {
  method : http_method;
  path : list string;
  form : gmap string string;
  remote_addr : string;
  time : N
}.

(** The [@app.route] decorators: the endpoint a request is routed to and
    the value of [<account_number>]. *)
Definition url_map (m : http_method) (p : list string)
    : option (Endpoint.t * string) :=
  match m, p with
  | GET, [] => Some (Endpoint.account_index, "")
  | GET, ["accounts"] => Some (Endpoint.account_index, "")
  | GET, ["accounts"; k; "update"] =>
      if String.eqb k "" then None else Some (Endpoint.account_update_view, k)
  | POST, ["accounts"; k; "update"] =>
      if String.eqb k "" then None else Some (Endpoint.account_update_save, k)
  | POST, ["accounts"; k; "delete"] =>
      if String.eqb k "" then None else Some (Endpoint.account_delete, k)
  | GET, ["ping"] => Some (Endpoint.ping, "")
  | _, _ => None
  end.

(** The [@limiter.limit] and [@limiter.exempt] decorators of app.py. *)
Definition one_per_second : limiter.limit :=
  {| limiter.amount := 1; limiter.multiples := 1; limiter.per := limiter.second |}.

Definition limiter_marking (e : Endpoint.t) : limiter.marking :=
  match e with
  | Endpoint.account_index => limiter.decorated [limiter.limit_decorator one_per_second]
  | Endpoint.account_update_view => limiter.decorated [limiter.limit_decorator one_per_second]
  | Endpoint.account_update_save => limiter.undecorated
  | Endpoint.account_delete => limiter.undecorated
  | Endpoint.ping => limiter.exempt
  end.

(** The limits checked for a request to the endpoint, in the order of
    their evaluation. *)
Definition limits_of (e : Endpoint.t) : list limiter.limit :=
  limiter.sorted (limiter.resolve_limits (limiter_marking e)).

(** The limiter's check of a request, made before the body of the view
    function runs: in the [before_request] hook, or in the wrapper that the
    decorator puts around a decorated view function. *)
Definition check_request_limit (e : Endpoint.t) (req : request)
    (s : limiter.storage) : bool * limiter.storage :=
  limiter.evaluate (limits_of e) (remote_addr req) (Endpoint.name e) (time req) s.

Definition view_function (e : Endpoint.t) (account_number : string)
    (req : request) : M pg.server response :=
  match e with
  | Endpoint.account_index => account_index
  | Endpoint.account_update_view => account_update_view account_number
  | Endpoint.account_update_save => account_update_save account_number (form req)
  | Endpoint.account_delete => account_delete account_number
  | Endpoint.ping => ping
  end.

(** The state of the running application: the limiter's counters and the
    database server. *)
Record app_state := {
  counters : limiter.storage;
  db : pg.server
}.

(** One request through the application: routing, the limiter's hook,
    then the view function. *)
Definition full_dispatch_request (req : request) (st : app_state)
    : outcome response * app_state :=
  match url_map (method req) (path req) with
  | None => (Raises NotFound, st)
  | Some (e, account_number) =>
      let (ok, s') := check_request_limit e req (counters st) in
      if ok then
        let (r, w) := view_function e account_number req (db st) in
        (r, {| counters := s'; db := w |})
      else (Raises RateLimitExceeded, {| counters := s'; db := db st |})
  end.

(** The status code Flask answers with: an HTTP exception carries its own
    code, any other exception that leaves a view function is a 500. *)
Definition status_code (o : outcome response) : nat :=
  match o with
  | Returns (render_template _ _) => 200
  | Returns (redirect _) => 302
  | Returns (jsonify _) => 200
  | Raises (BadRequestKeyError _) => 400
  | Raises NotFound => 404
  | Raises RateLimitExceeded => 429
  | Raises _ => 500
  end.

(** A run of requests, in the order of their arrival. *)
Fixpoint serve (reqs : list request) (st : app_state)
    : list (outcome response) * app_state :=
  match reqs with
  | [] => ([], st)
  | r :: reqs' =>
      let (o, st1) := full_dispatch_request r st in
      let (os, st2) := serve reqs' st1 in
      (o :: os, st2)
  end.

(** ** Specification-side notions *)

(** The syntax of numeric strings as the documentation of the [decimal]
    module gives it:
<<
    sign           ::=  '+' | '-'
    digits         ::=  digit [digit]...
    decimal-part   ::=  digits '.' [digits] | ['.'] digits
    exponent-part  ::=  indicator [sign] digits
    infinity       ::=  'Infinity' | 'Inf'
    nan            ::=  'NaN' [digits] | 'sNaN' [digits]
    numeric-value  ::=  decimal-part [exponent-part] | infinity
    numeric-string ::=  [sign] numeric-value | [sign] nan
>>
    with letters in either case. *)
Module numeric_string.
Import pystr.

(** The input [r] does not go on with a digit. *)
Definition stops (r : list ascii) : Prop :=
  match r with
  | c :: _ => isdigit c = false
  | [] => True
  end.

(** The input [v] does not start with a sign. *)
Definition unsigned (v : list ascii) : Prop :=
  match v with
  | c :: _ => Ascii.eqb c "-" || Ascii.eqb c "+" = false
  | [] => True
  end.

(** The characters matched by an optional group of one character. *)
Definition group_chars (s : option ascii) : list ascii :=
  match s with Some c => [c] | None => [] end.

(** A possibly empty run of digits. *)
Definition digits0 (l : list ascii) : Prop := forallb isdigit l = true.

Definition digits (l : list ascii) : Prop := l <> [] /\ digits0 l.

Definition optional_sign (l : list ascii) : Prop :=
  l = [] \/ l = ["+"%char] \/ l = ["-"%char].

(** [l] is the word [w], letters in either case. *)
Definition word (w : string) (l : list ascii) : Prop :=
  map lower l = list_ascii_of_string w.

Inductive decimal_part : list ascii -> Prop :=
| digits_dot i f : digits i -> digits0 f -> decimal_part (i ++ "."%char :: f)
| dot_digits f : digits f -> decimal_part ("."%char :: f)
| only_digits i : digits i -> decimal_part i.

Inductive exponent_part : list ascii -> Prop :=
| exponent_part_intro e s d :
    word "e" [e] -> optional_sign s -> digits d -> exponent_part (e :: s ++ d).

Inductive numeric_value : list ascii -> Prop :=
| value_decimal p : decimal_part p -> numeric_value p
| value_decimal_exp p e :
    decimal_part p -> exponent_part e -> numeric_value (p ++ e)
| value_inf l : word "inf" l -> numeric_value l
| value_infinity l : word "infinity" l -> numeric_value l.

Inductive nan : list ascii -> Prop :=
| nan_quiet w d : word "nan" w -> digits0 d -> nan (w ++ d)
| nan_signaling w d : word "snan" w -> digits0 d -> nan (w ++ d).

Inductive t : list ascii -> Prop :=
| signed_value s v : optional_sign s -> numeric_value v -> t (s ++ v)
| signed_nan s n : optional_sign s -> nan n -> t (s ++ n).

End numeric_string.

(** What the constructor does to its argument before matching it. *)
Definition cleaned (s : string) : list ascii :=
  pystr.remove_underscores (pystr.strip (list_ascii_of_string s)).

(** The exponent of the numeric string, when it is a finite number, is
    within the bounds of the implementation: with [n] the number of digits
    of the coefficient and [e] the exponent, [e + n - 1 <= MAX_EMAX] and
    [MIN_ETINY <= e]. *)
Definition in_range (l : list ascii) : Prop :=
  forall m, decimal._parser l = Some m -> decimal.fits m = true.

(** "The input string parses as an exact decimal number and its value
    is >= 0". *)
Definition nonnegative_decimal (s : string) : Prop :=
  exists d q,
    decimal.__new__ s = Returns d /\ decimal.value d = Some q /\ Qle 0 q.

(** The three checks of the update handler on the field [balance]. *)
Definition fails_presence (balance : string) : Prop := balance = "".

Definition fails_format (balance : string) : Prop :=
  is_decimal balance = Returns false.

Definition fails_sign (balance : string) : Prop :=
  exists d, decimal.__new__ balance = Returns d
            /\ decimal.__lt__zero d = Returns true.

Definition passes_checks (balance : string) : Prop :=
  balance <> ""
  /\ is_decimal balance = Returns true
  /\ exists d, decimal.__new__ balance = Returns d
               /\ decimal.__lt__zero d = Returns false.

(** The tables after the two statements of a delete. *)
Definition without (k : string) (d : pg.database) : pg.database :=
  {| pg.account :=
       List.filter (fun r => negb (pg.account_where k r)) (pg.account d);
     pg.depositor :=
       List.filter (fun r => negb (pg.depositor_where k r)) (pg.depositor d) |}.

(** The commands of a delete that goes through. *)
Definition delete_commands (k : string) : list pg.command :=
  [pg.BEGIN; pg.Execute (pg.DELETE_depositor k);
   pg.Execute (pg.DELETE_account k); pg.COMMIT].

(** The account has no row in either table. *)
Definition absent (k : string) (d : pg.database) : Prop :=
  (forall r, In r (pg.account d) -> Account.account_number r <> k)
  /\ (forall r, In r (pg.depositor d) -> Depositor.account_number r <> k).

(** "At most [n] requests per [window] milliseconds and client address":
    of more than [n] requests of one client, arriving in order within one
    window and routed to view functions that are not exempt, not all are
    served. *)
Definition enforced_per_client (n : nat) (window : N) : Prop :=
  forall (st : app_state) (reqs : list request) (addr : string) (t0 : N),
    Forall (fun r => remote_addr r = addr
                     /\ (t0 <= time r < t0 + window)%N
                     /\ exists e k, url_map (method r) (path r) = Some (e, k)
                                    /\ limiter_marking e <> limiter.exempt) reqs ->
    StronglySorted (fun r1 r2 => (time r1 <= time r2)%N) reqs ->
    n < length reqs ->
    Exists (fun o => o = Raises RateLimitExceeded) (fst (serve reqs st)).

(** ** Sample data *)

Module sample.

Definition money (s : string) : decimal.Decimal :=
  match decimal.__new__ s with
  | Returns d => d
  | Raises _ => {| decimal._sign := false; decimal._int := 0; decimal._exp := decimal.Exp 0 |}
  end.

Definition acct (k b v : string) : Account.row :=
  {| Account.account_number := k; Account.branch_name := b;
     Account.balance := money v |}.

Definition dep (c k : string) : Depositor.row :=
  {| Depositor.customer_name := c; Depositor.account_number := k |}.

Definition bank : pg.database :=
  {| pg.account :=
       [acct "101" "Downtown" "500.00"; acct "215" "Mianus" "700";
        acct "202" "Perryridge" "400"];
     pg.depositor :=
       [dep "Hayes" "202"; dep "Johnson" "101"; dep "Smith" "215";
        dep "Jones" "202"] |}.

Definition server (fl : list bool) : pg.server :=
  {| pg.tables := bank; pg.faults := fl; pg.sent := [] |}.

Definition state : app_state :=
  {| counters := ∅; db := server [] |}.

Definition get (p : list string) (t : N) : request :=
  {| method := GET; path := p; form := ∅;
     remote_addr := "192.0.2.7"; time := t |}.

(** The form of an update with the given balance. *)
Definition balance_form (b : string) : gmap string string :=
  {["balance" := b]}.

(** Fifty-one requests for the listing, two seconds apart. *)
Definition listing_run : list request :=
  map (fun i => get ["accounts"] (N.of_nat i * 2000)) (seq 0 51).

End sample.


(** ** Notions for the further properties *)

(** The balance of the row is neither negative nor a NaN: the third check
    of the update handler lets it through. *)
Definition balance_ok (r : Account.row) : Prop :=
  decimal.__lt__zero (Account.balance r) = Returns false.

Definition balances_ok (d : pg.database) : Prop :=
  Forall balance_ok (pg.account d).

(** What one request can do to the tables: nothing, the update of one
    account with a balance that is not negative, or the delete of one
    account. *)
Definition table_step (t t' : pg.database) : Prop :=
  t' = t
  \/ (exists k v, t' = pg.update_balance k v t
                  /\ decimal.__lt__zero v = Returns false)
  \/ (exists k, t' = without k t).

(** The limit [l] has room for one more hit of the client on the scope at
    time [now]. *)
Definition has_room (l : limiter.limit) (addr scope : string) (now : N)
    (s : limiter.storage) : Prop :=
  fst (limiter.bump (s !! limiter.key_for l addr scope)
                    (limiter.get_expiry l) now)
  <= limiter.amount l.

(** Every counter kept has counted at least one hit. *)
Definition counted (s : limiter.storage) : Prop :=
  forall (k : limiter.key) (c : nat) (t : N), s !! k = Some (c, t) -> 1 <= c.

(** The application as it starts: no counter yet. *)
Definition fresh (d : pg.server) : app_state :=
  {| counters := ∅; db := d |}.

(** The state after a run of requests. *)
Definition after (reqs : list request) (st : app_state) : app_state :=
  snd (serve reqs st).

(** A scenario on the sample: one client updates account 101, asks for the
    listing, deletes account 202, and asks for its update view, one request
    every ten seconds. *)
Module scenario.

Definition post (p : list string) (f : gmap string string) (t : N) : request :=
  {| method := POST; path := p; form := f;
     remote_addr := "192.0.2.7"; time := t |}.

Definition run : list request :=
  [ post ["accounts"; "101"; "update"] (sample.balance_form "750.50") 0;
    sample.get ["accounts"] 10000;
    post ["accounts"; "202"; "delete"] ∅ 20000;
    sample.get ["accounts"; "202"; "update"] 30000 ].

(** Requests that only read. *)
Definition reads : list request :=
  [ sample.get [] 0; sample.get ["accounts"; "101"; "update"] 5000;
    sample.get ["ping"] 5001; sample.get ["accounts"] 9000 ].

End scenario.
(** * Properties *)

(** ** Characters *)

Ltac by_cases_on_char c :=
  destruct c as [[|] [|] [|] [|] [|] [|] [|] [|]]; vm_compute; intuition congruence.

Lemma digit_is_plain c :
  pystr.isdigit c = true ->
  Ascii.eqb c "." = false /\ Ascii.eqb c "-" = false /\ Ascii.eqb c "+" = false
  /\ Ascii.eqb (pystr.lower c) "e" = false
  /\ Ascii.eqb (pystr.lower c) "s" = false.
Proof. by_cases_on_char c. Qed.

Lemma letter_is_plain c :
  pystr.lower c = "i"%char \/ pystr.lower c = "n"%char
  \/ pystr.lower c = "s"%char \/ pystr.lower c = "e"%char ->
  pystr.isdigit c = false /\ Ascii.eqb c "." = false
  /\ Ascii.eqb c "-" = false /\ Ascii.eqb c "+" = false.
Proof. by_cases_on_char c. Qed.

Lemma dot_is_plain c :
  Ascii.eqb c "." = true ->
  pystr.isdigit c = false /\ Ascii.eqb c "-" = false /\ Ascii.eqb c "+" = false.
Proof. by_cases_on_char c. Qed.

Lemma sign_is_plain c :
  Ascii.eqb c "-" || Ascii.eqb c "+" = true ->
  pystr.isdigit c = false /\ (c = "-"%char \/ c = "+"%char).
Proof. by_cases_on_char c. Qed.

(** ** The parser accepts the numeric strings *)

Section Parser.
Import pystr decimal.
Import numeric_string (stops, unsigned, group_chars, digits0, digits).
Import numeric_string (word, optional_sign).

Lemma digits_prefix_spec l :
  l = fst (digits_prefix l) ++ snd (digits_prefix l)
  /\ digits0 (fst (digits_prefix l))
  /\ stops (snd (digits_prefix l)).
Proof.
  induction l as [|c l IH]; simpl.
  - repeat split.
  - destruct (isdigit c) eqn:Hc.
    + destruct (digits_prefix l) as [d r]; simpl in *.
      destruct IH as (-> & Hd & Hr). repeat split; trivial.
      unfold digits0; simpl. now rewrite Hc.
    + simpl. repeat split. exact Hc.
Qed.

Lemma digits_prefix_app d r :
  digits0 d -> stops r -> digits_prefix (d ++ r) = (d, r).
Proof.
  intros Hd Hr. induction d as [|c d IH]; simpl.
  - destruct r as [|c r]; simpl in *; trivial. now rewrite Hr.
  - unfold digits0 in Hd; simpl in Hd. apply andb_true_iff in Hd as [Hc Hd].
    rewrite Hc, (IH Hd). reflexivity.
Qed.

Lemma opt_sign_spec l :
  l = group_chars (fst (opt_sign l)) ++ snd (opt_sign l)
  /\ optional_sign (group_chars (fst (opt_sign l))).
Proof.
  destruct l as [|c l]; simpl.
  - split; [reflexivity | now left].
  - destruct (Ascii.eqb c "-" || Ascii.eqb c "+") eqn:Hc; simpl.
    + split; trivial. apply sign_is_plain in Hc as [_ [-> | ->]];
        [right; right | right; left]; reflexivity.
    + split; [reflexivity | now left].
Qed.

Lemma opt_sign_app s v :
  optional_sign s -> unsigned v ->
  exists sg, opt_sign (s ++ v) = (sg, v).
Proof.
  intros [-> | [-> | ->]] Hv; simpl; eauto.
  destruct v as [|c v]; simpl in *; eauto. rewrite Hv. eauto.
Qed.

Lemma opt_fraction_spec r1 :
  match opt_fraction r1 with
  | (Some f, r2) => r1 = "."%char :: f ++ r2 /\ digits0 f /\ stops r2
  | (None, r2) =>
      r2 = r1 /\ match r1 with c :: _ => Ascii.eqb c "." = false | [] => True end
  end.
Proof.
  destruct r1 as [|c r]; simpl; [now split|].
  destruct (Ascii.eqb c ".") eqn:Hc; [|now split].
  apply Ascii.eqb_eq in Hc as ->.
  destruct (digits_prefix_spec r) as (Hr & Hd & Hs).
  destruct (digits_prefix r) as [f r2]; simpl in *. now subst.
Qed.

Lemma opt_exponent_end_spec r :
  match opt_exponent_end r with
  | Some None => r = []
  | Some (Some _) => numeric_string.exponent_part r
  | None => True
  end.
Proof.
  destruct r as [|c r]; simpl; trivial.
  destruct (Ascii.eqb (lower c) "e") eqn:Hc; trivial.
  destruct (opt_sign_spec r) as (Hr & Hs).
  destruct (opt_sign r) as [s r0]; simpl in *.
  destruct (digits_prefix_spec r0) as (Hr0 & Hd & _).
  destruct (digits_prefix r0) as [d r']; simpl in *.
  destruct d as [|d0 d]; trivial. destruct r'; trivial.
  rewrite app_nil_r in Hr0. subst r0. subst r.
  constructor; trivial.
  - unfold word. simpl. now apply Ascii.eqb_eq in Hc as ->.
  - split; [discriminate | trivial].
Qed.

Lemma opt_exponent_end_complete r :
  numeric_string.exponent_part r -> exists e, opt_exponent_end r = Some (Some e).
Proof.
  intros [e s d He Hs [Hne Hd]]. simpl.
  unfold word in He. simpl in He. injection He as He. rewrite He. simpl.
  assert (Hu : unsigned d).
  { destruct d as [|c d]; [congruence|]. simpl.
    unfold digits0 in Hd. simpl in Hd. apply andb_true_iff in Hd as [Hc _].
    apply digit_is_plain in Hc as (_ & -> & -> & _). reflexivity. }
  destruct (opt_sign_app s d Hs Hu) as [sg ->].
  pose proof (digits_prefix_app d [] Hd I) as Hp. rewrite app_nil_r in Hp.
  rewrite Hp. destruct d; [congruence|]. eauto.
Qed.

Lemma exponent_tail e :
  e = [] \/ numeric_string.exponent_part e ->
  stops e
  /\ match e with c :: _ => Ascii.eqb c "." = false | [] => True end
  /\ exists x, opt_exponent_end e = Some x.
Proof.
  intros [-> | He]; [simpl; eauto|].
  destruct (opt_exponent_end_complete e He) as [x Hx].
  destruct He as [c s d Hc _ _]. unfold word in Hc. simpl in Hc.
  injection Hc as Hc.
  destruct (letter_is_plain c) as (H1 & H2 & _); [tauto|].
  simpl. eauto.
Qed.

Lemma digits_head d r :
  digits d -> exists c l, d ++ r = c :: l /\ isdigit c = true.
Proof.
  intros [Hne Hd]. destruct d as [|c d]; [congruence|].
  unfold digits0 in Hd. simpl in Hd. apply andb_true_iff in Hd as [Hc _].
  simpl. eauto.
Qed.

Lemma digits_digits0 d : digits d -> digits0 d.
Proof. now intros [_ H]. Qed.

Lemma number_sound sg body g :
  number_lookahead body = true -> number sg body = Some g ->
  numeric_string.numeric_value body.
Proof.
  unfold number. intros Hl H.
  destruct (digits_prefix_spec body) as (Hb & Hi & Hs).
  destruct (digits_prefix body) as [i r1]; simpl in *.
  pose proof (opt_fraction_spec r1) as Hf.
  destruct (opt_fraction r1) as [frac r2].
  pose proof (opt_exponent_end_spec r2) as He.
  destruct (opt_exponent_end r2) as [e|]; [clear H|discriminate].
  assert (Hp : exists p, body = p ++ r2 /\ numeric_string.decimal_part p).
  { destruct frac as [f|].
    - destruct Hf as (-> & Hf & Hr2).
      exists (i ++ "."%char :: f). split.
      { rewrite Hb, <- app_assoc. reflexivity. }
      destruct i as [|c i].
      + simpl. apply numeric_string.dot_digits. split; trivial.
        intros ->. subst body. simpl in Hl.
        destruct r2 as [|c r2]; simpl in *; congruence.
      + apply numeric_string.digits_dot; [split; [discriminate|]|]; trivial.
    - destruct Hf as (-> & Hdot). exists i. split; trivial.
      apply numeric_string.only_digits. split; trivial.
      intros ->. subst body. simpl in Hl.
      destruct r1 as [|c r1]; simpl in *; [discriminate|].
      rewrite Hs, Hdot in Hl. discriminate. }
  destruct Hp as (p & -> & Hp).
  destruct e as [e|].
  - now apply numeric_string.value_decimal_exp.
  - subst r2. rewrite app_nil_r. now apply numeric_string.value_decimal.
Qed.

Lemma number_complete sg p e :
  numeric_string.decimal_part p ->
  e = [] \/ numeric_string.exponent_part e ->
  number_lookahead (p ++ e) = true /\ exists g, number sg (p ++ e) = Some g.
Proof.
  intros Hp He. destruct (exponent_tail e He) as (Hs & Hdot & x & Hx).
  unfold number. destruct Hp as [i f Hi Hf | f Hf | i Hi].
  - rewrite <- app_assoc. split.
    + destruct (digits_head i (("."%char :: f) ++ e) Hi) as (c & l & -> & Hc).
      simpl. now rewrite Hc.
    + rewrite digits_prefix_app; [|now apply digits_digits0|reflexivity].
      simpl. rewrite digits_prefix_app; trivial. rewrite Hx. eauto.
  - split.
    + destruct (digits_head f e Hf) as (c & l & Hcl & Hc).
      simpl. rewrite Hcl. exact Hc.
    + simpl. rewrite digits_prefix_app; [|now apply digits_digits0|trivial].
      rewrite Hx. eauto.
  - split.
    + destruct (digits_head i e Hi) as (c & l & -> & Hc).
      simpl. now rewrite Hc.
    + rewrite digits_prefix_app; [|now apply digits_digits0|trivial].
      assert (Hfr : opt_fraction e = (None, e)).
      { destruct e as [|c e']; trivial. simpl. now rewrite Hdot. }
      rewrite Hfr, Hx. eauto.
Qed.

Lemma lowered_word w l : String.eqb (lowered l) w = true <-> word w l.
Proof.
  unfold lowered, word. rewrite String.eqb_eq. split.
  - intros <-. now rewrite list_ascii_of_string_of_list_ascii.
  - intros ->. now rewrite string_of_list_ascii_of_string.
Qed.

Lemma infinity_spec body :
  infinity body = true <-> word "inf" body \/ word "infinity" body.
Proof.
  unfold infinity. rewrite orb_true_iff, !lowered_word. tauto.
Qed.

Lemma nan_sound sg body g : nan sg body = Some g -> numeric_string.nan body.
Proof.
  unfold nan, opt_signal, nan_diag_end.
  destruct body as [|c0 body]; [discriminate|].
  destruct (Ascii.eqb (lower c0) "s") eqn:Hs.
  - destruct body as [|a [|b [|c d]]]; try discriminate.
    destruct (String.eqb (lowered [a; b; c]) "nan" && forallb isdigit d) eqn:H;
      [|discriminate].
    apply andb_true_iff in H as [Hw Hd]. apply lowered_word in Hw.
    intros _. apply (numeric_string.nan_signaling [c0; a; b; c] d); trivial.
    unfold word in *. simpl in *. apply Ascii.eqb_eq in Hs. congruence.
  - destruct body as [|b [|c d]]; try discriminate.
    destruct (String.eqb (lowered [c0; b; c]) "nan" && forallb isdigit d) eqn:H;
      [|discriminate].
    apply andb_true_iff in H as [Hw Hd]. apply lowered_word in Hw.
    intros _. now apply (numeric_string.nan_quiet [c0; b; c] d).
Qed.

Lemma word_length w l : word w l -> length l = String.length w.
Proof.
  unfold word. intros H. rewrite <- (length_map lower l), H. clear H.
  induction w; simpl; auto.
Qed.

Lemma nan_complete sg body :
  numeric_string.nan body -> exists g, nan sg body = Some g.
Proof.
  intros [w d Hw Hd | w d Hw Hd]; pose proof (word_length _ _ Hw) as Hlen;
    unfold nan, opt_signal.
  - destruct w as [|a [|b [|c [|? ?]]]]; try discriminate Hlen.
    assert (Ha : Ascii.eqb (lower a) "s" = false).
    { unfold word in Hw. simpl in Hw. injection Hw as -> _ _. reflexivity. }
    simpl. rewrite Ha. unfold nan_diag_end.
    apply lowered_word in Hw. rewrite Hw. unfold digits0 in Hd. rewrite Hd.
    simpl. eauto.
  - destruct w as [|s [|a [|b [|c [|? ?]]]]]; try discriminate Hlen.
    unfold word in Hw. simpl in Hw. injection Hw as Hs Ha Hb Hc.
    simpl. rewrite Hs. simpl. unfold lowered. simpl. rewrite Ha, Hb, Hc.
    unfold digits0 in Hd. rewrite Hd. simpl. eauto.
Qed.

Lemma parser_sound l g : _parser l = Some g -> numeric_string.t l.
Proof.
  unfold _parser. destruct (opt_sign_spec l) as (Hl & Hs).
  destruct (opt_sign l) as [sg body]; simpl in *. subst l.
  destruct (number_lookahead body) eqn:Hn.
  - intros H. apply numeric_string.signed_value; trivial.
    eapply number_sound; eauto.
  - destruct (infinity body) eqn:Hi.
    + intros _. apply infinity_spec in Hi as [Hi|Hi];
        apply numeric_string.signed_value; trivial.
      * now apply numeric_string.value_inf.
      * now apply numeric_string.value_infinity.
    + intros H. apply numeric_string.signed_nan; trivial.
      eapply nan_sound; eauto.
Qed.

Lemma lookahead_unsigned v : number_lookahead v = true -> unsigned v.
Proof.
  destruct v as [|c v]; simpl; trivial. intros H.
  apply orb_true_iff in H as [H|H].
  - apply digit_is_plain in H as (_ & -> & -> & _). reflexivity.
  - apply andb_true_iff in H as [H _].
    apply dot_is_plain in H as (_ & -> & ->). reflexivity.
Qed.

(** A word that starts with one of the letters i, n, s is none of the
    first alternative. *)
Lemma letter_head c v :
  lower c = "i"%char \/ lower c = "n"%char \/ lower c = "s"%char ->
  unsigned (c :: v) /\ number_lookahead (c :: v) = false.
Proof.
  intros H. destruct (letter_is_plain c) as (H1 & H2 & H3 & H4); [tauto|].
  simpl. rewrite H1, H2, H3, H4. now split.
Qed.

Lemma parser_complete l : numeric_string.t l -> exists g, _parser l = Some g.
Proof.
  unfold _parser.
  intros [s v Hs Hv | s n Hs Hn].
  - destruct Hv as [p Hp | p e Hp He | v Hw | v Hw].
    + destruct (number_complete None p [] Hp (or_introl eq_refl)) as [Hl _].
      rewrite app_nil_r in Hl.
      destruct (opt_sign_app s p Hs (lookahead_unsigned _ Hl)) as [sg ->].
      rewrite Hl.
      destruct (number_complete sg p [] Hp (or_introl eq_refl)) as [_ Hg].
      now rewrite app_nil_r in Hg.
    + destruct (number_complete None p e Hp (or_intror He)) as [Hl _].
      destruct (opt_sign_app s _ Hs (lookahead_unsigned _ Hl)) as [sg ->].
      rewrite Hl. apply (number_complete sg p e Hp (or_intror He)).
    + pose proof (word_length _ _ Hw) as Hlen.
      destruct v as [|a v]; [discriminate|].
      assert (Ha : lower a = "i"%char) by (unfold word in Hw; simpl in Hw; congruence).
      destruct (letter_head a v) as [Hu Hl]; [tauto|].
      destruct (opt_sign_app s _ Hs Hu) as [sg ->]. rewrite Hl.
      rewrite (proj2 (infinity_spec (a :: v))); eauto.
    + pose proof (word_length _ _ Hw) as Hlen.
      destruct v as [|a v]; [discriminate|].
      assert (Ha : lower a = "i"%char) by (unfold word in Hw; simpl in Hw; congruence).
      destruct (letter_head a v) as [Hu Hl]; [tauto|].
      destruct (opt_sign_app s _ Hs Hu) as [sg ->]. rewrite Hl.
      rewrite (proj2 (infinity_spec (a :: v))); eauto.
  - assert (Hh : exists a v, n = a :: v
                   /\ (lower a = "n"%char \/ lower a = "s"%char)).
    { destruct Hn as [w d Hw _ | w d Hw _]; pose proof (word_length _ _ Hw) as Hlen;
        (destruct w as [|a w]; [discriminate|]);
        exists a, (w ++ d); (split; [reflexivity|]);
        unfold word in Hw; simpl in Hw; injection Hw as Ha _; tauto. }
    destruct Hh as (a & v & Hav & Ha).
    assert (Hi : infinity n = false).
    { subst n. unfold infinity, lowered. simpl.
      destruct Ha as [-> | ->]; reflexivity. }
    destruct (letter_head a v) as [Hu Hl]; [tauto|]. rewrite <- Hav in Hu, Hl.
    destruct (opt_sign_app s _ Hs Hu) as [sg ->]. rewrite Hl, Hi.
    now apply nan_complete.
Qed.

(** The constructor returns a [Decimal] exactly on the numeric strings
    within range, and raises [InvalidOperation] on every other string. *)
Lemma new_returns_iff s :
  (exists d, __new__ s = Returns d)
  <-> numeric_string.t (cleaned s) /\ in_range (cleaned s).
Proof.
  unfold __new__, in_range, cleaned, fits. split.
  - intros [d H].
    destruct (_parser _) as [g|] eqn:Hg; [|discriminate]. split.
    + eapply parser_sound; eauto.
    + intros m Hm. injection Hm as <-.
      destruct (g_int g); trivial.
      destruct (exact _ _); [reflexivity | discriminate].
  - intros [H Hr]. apply parser_complete in H as [g Hg].
    specialize (Hr g Hg). rewrite Hg.
    destruct (g_int g); [rewrite Hr; eauto|]. destruct (g_diag g); eauto.
Qed.

Lemma new_raises s e : __new__ s = Raises e -> e = InvalidOperation.
Proof.
  unfold __new__. destruct (_parser _) as [g|].
  - destruct (g_int g).
    + destruct (exact _ _); [discriminate | congruence].
    + destruct (g_diag g); discriminate.
  - congruence.
Qed.

End Parser.

(** ** Numbers within the range of the implementation *)

Section Range.
Import pystr decimal.
Import numeric_string (stops, unsigned, group_chars, digits0, digits).
Import numeric_string (word, optional_sign).

Lemma digit_value_le c : isdigit c = true -> (digit_value c <= 9)%N.
Proof.
  unfold isdigit, digit_value. intros H.
  apply andb_true_iff in H as [H1 H2].
  apply Nat.leb_le in H1, H2. lia.
Qed.

Lemma int_digits_from l acc :
  digits0 l ->
  (fold_left (fun a c => 10 * a + digit_value c) l acc
   < (acc + 1) * 10 ^ N.of_nat (length l))%N.
Proof.
  revert acc. induction l as [|c l IH]; intros acc Hd.
  - simpl. lia.
  - unfold digits0 in Hd. simpl in Hd. apply andb_true_iff in Hd as [Hc Hd].
    apply digit_value_le in Hc.
    cbn [fold_left length].
    specialize (IH (10 * acc + digit_value c)%N Hd).
    rewrite Nat2N.inj_succ, N.pow_succ_r'. nia.
Qed.

Lemma int_digits_lt l :
  digits0 l -> (int_digits l < 10 ^ N.of_nat (length l))%N.
Proof.
  intros Hd. pose proof (int_digits_from l 0 Hd) as H.
  unfold int_digits. lia.
Qed.

Lemma int_digits_lt_Z l :
  digits0 l -> (Z.of_N (int_digits l) < 10 ^ Z.of_nat (length l))%Z.
Proof.
  intros Hd. pose proof (int_digits_lt l Hd) as Hlt.
  apply N2Z.inj_lt in Hlt. rewrite N2Z.inj_pow, nat_N_Z in Hlt. exact Hlt.
Qed.

Lemma int_signed_lt c d :
  optional_sign [c] \/ isdigit c = true ->
  digits0 d ->
  (Z.abs (int_signed (c :: d)) < 10 ^ Z.of_nat (length (c :: d)))%Z.
Proof.
  intros Hc Hd.
  pose proof (int_digits_lt_Z d Hd) as HN.
  assert (Hpow : (10 ^ Z.of_nat (length d) <= 10 ^ Z.of_nat (length (c :: d)))%Z).
  { apply Z.pow_le_mono_r; simpl; lia. }
  unfold int_signed.
  destruct (Ascii.eqb c "-") eqn:Hm; [lia|].
  destruct (Ascii.eqb c "+") eqn:Hp; [lia|].
  destruct Hc as [[Hc | [Hc | Hc]] | Hc].
  - discriminate.
  - injection Hc as ->. discriminate.
  - injection Hc as ->. discriminate.
  - assert (Hcd : digits0 (c :: d)).
    { unfold digits0 in *. simpl. now rewrite Hc, Hd. }
    pose proof (int_digits_lt_Z (c :: d) Hcd) as Hlt'. lia.
Qed.

Lemma opt_exponent_end_group r e :
  opt_exponent_end r = Some (Some e) ->
  length e < length r
  /\ (Z.abs (int_signed e) < 10 ^ Z.of_nat (length e))%Z.
Proof.
  destruct r as [|c r]; [discriminate|]. simpl.
  destruct (Ascii.eqb (lower c) "e"); [|discriminate].
  destruct (opt_sign_spec r) as (Hr & Hs).
  destruct (opt_sign r) as [s r0]; simpl in *.
  destruct (digits_prefix_spec r0) as (Hr0 & Hd & _).
  destruct (digits_prefix r0) as [d r']; simpl in *.
  destruct d as [|d0 d]; [discriminate|]. destruct r'; [|discriminate].
  rewrite app_nil_r in Hr0. subst r0. subst r.
  intros H. injection H as <-.
  destruct s as [c'|]; cbn [group_chars app length] in *.
  - split; [lia|]. apply int_signed_lt; auto.
  - unfold digits0 in Hd. simpl in Hd. apply andb_true_iff in Hd as [Hd0 Hd].
    split; [lia|]. apply int_signed_lt; auto.
Qed.

Lemma lstrip_zeros_length l : length (lstrip_zeros l) <= length l.
Proof.
  induction l as [|c l IH]; simpl; trivial.
  destruct (Ascii.eqb c "0"); simpl; lia.
Qed.

Lemma exact_small ds (e : Z) :
  length ds <= 18 ->
  (- 10 ^ 17 - 18 <= e <= 10 ^ 17)%Z ->
  exact ds e = true.
Proof.
  intros Hl He. unfold exact, coefficient_length, MAX_EMAX, MIN_ETINY.
  pose proof (lstrip_zeros_length ds) as Hz.
  change (10 ^ 17)%Z with 100000000000000000%Z in He.
  apply andb_true_iff. split; apply Z.leb_le; lia.
Qed.

Lemma number_fits sg body m :
  number sg body = Some m -> length body <= 18 -> fits m = true.
Proof.
  unfold number. intros H Hlen.
  destruct (digits_prefix_spec body) as (Hb & _ & _).
  destruct (digits_prefix body) as [i r1]; simpl in *.
  pose proof (opt_fraction_spec r1) as Hf.
  destruct (opt_fraction r1) as [frac r2].
  pose proof (opt_exponent_end_group r2) as He.
  destruct (opt_exponent_end r2) as [e|]; [|discriminate].
  injection H as <-. unfold fits. cbn [g_int g_frac g_exp].
  assert (Hfr : length i + length (or_empty frac) + length r2 <= 18).
  { subst body. rewrite length_app in Hlen.
    destruct frac as [f|].
    - destruct Hf as (-> & _ & _). simpl in *. rewrite length_app in Hlen. lia.
    - destruct Hf as (-> & _). simpl. lia. }
  apply exact_small; [rewrite length_app; lia|].
  destruct e as [e|].
  - destruct (He e eq_refl) as [Hle Habs].
    assert (Hpow : (10 ^ Z.of_nat (length e) <= 10 ^ 17)%Z)
      by (apply Z.pow_le_mono_r; lia).
    change (10 ^ 17)%Z with 100000000000000000%Z in *. lia.
  - change (10 ^ 17)%Z with 100000000000000000%Z. lia.
Qed.

(** A short string is within range. *)
Lemma short_in_range l : length l <= 18 -> in_range l.
Proof.
  intros Hlen m. unfold _parser.
  destruct (opt_sign_spec l) as (Hl & _).
  destruct (opt_sign l) as [sg body]; simpl in *.
  assert (Hb : length body <= 18).
  { rewrite Hl, length_app in Hlen. lia. }
  destruct (number_lookahead body).
  - intros H. eapply number_fits; eauto.
  - destruct (infinity body).
    + intros H. injection H as <-. reflexivity.
    + unfold nan. destruct (opt_signal body) as [signal r].
      destruct (nan_diag_end r); [|discriminate].
      intros H. injection H as <-. reflexivity.
Qed.

End Range.

(** ** Decimal values and the comparison with zero *)

Section DecimalOrder.
Import decimal.

Lemma lt_zero_finite d e :
  _exp d = Exp e ->
  __lt__zero d = Returns (_sign d && negb (_int d =? 0)%N).
Proof.
  intros He. unfold __lt__zero, _compare_check_nans, _cmp_zero, _is_special.
  rewrite He. destruct (_int d =? 0)%N, (_sign d); reflexivity.
Qed.

Lemma value_negative d q :
  value d = Some q ->
  (Qlt q 0 <-> _sign d = true /\ _int d <> 0%N).
Proof.
  unfold value. destruct (_exp d) as [e| | |]; try discriminate.
  intros Hq. injection Hq as <-.
  pose proof (Qpower_0_lt (inject_Z 10) e eq_refl) as HP.
  destruct (Qpower (inject_Z 10) e) as [a b].
  destruct (_sign d); unfold Qlt, Qmult, Qopp, inject_Z in *; simpl in *; split.
  - intros H. split; trivial. intros Hn. rewrite Hn in H. simpl in H. lia.
  - intros [_ Hn]. nia.
  - intros H. exfalso. nia.
  - intros [? _]. discriminate.
Qed.

(** On a finite [Decimal], [self < 0] is the comparison of the values. *)
Lemma lt_zero_value d q :
  value d = Some q ->
  (__lt__zero d = Returns true <-> Qlt q 0)
  /\ (__lt__zero d = Returns false <-> Qle 0 q).
Proof.
  intros Hq. pose proof (value_negative d q Hq) as Hn.
  assert (He : exists e, _exp d = Exp e).
  { unfold value in Hq. destruct (_exp d); try discriminate. eauto. }
  destruct He as [e He]. rewrite (lt_zero_finite d e He).
  assert (Hle : Qle 0 q <-> ~ Qlt q 0) by (split; [apply Qle_not_lt | apply Qnot_lt_le]).
  rewrite Hle.
  destruct (_sign d), (N.eqb_spec (_int d) 0); simpl; split; split;
    intros H; try discriminate; try tauto; try congruence;
    try (exfalso; tauto); try (intros H'; apply Hn in H'; destruct H'; congruence).
  apply Hn in H as [H _]. discriminate.
Qed.

End DecimalOrder.

(** On the string of a finite decimal, the three checks of the update
    handler pass exactly when the value is not negative. *)
Lemma passes_checks_by_value (b : string) (d : decimal.Decimal) (q : Q) :
  decimal.__new__ b = Returns d -> decimal.value d = Some q ->
  (passes_checks b <-> Qle 0 q).
Proof.
  intros Hd Hq. destruct (lt_zero_value d q Hq) as [_ Hle].
  unfold passes_checks, is_decimal. rewrite Hd. split.
  - intros (_ & _ & d' & Hd' & Hlt). apply Hle. congruence.
  - intros H. split; [|split; [reflexivity|]].
    + intros ->. vm_compute in Hd. discriminate.
    + exists d. split; [reflexivity | now apply Hle].
Qed.

(** ** Tables *)

Section Tables.

Lemma database_eta d :
  {| pg.account := pg.account d; pg.depositor := pg.depositor d |} = d.
Proof. now destruct d. Qed.

Lemma filter_none {A} (p : A -> bool) l :
  (forall x, In x l -> p x = false) -> List.filter p l = [].
Proof.
  induction l as [|x l IH]; simpl; intros H; trivial.
  rewrite (H x) by now left. apply IH. intros y Hy. apply H. now right.
Qed.

Lemma filter_all {A} (p : A -> bool) l :
  (forall x, In x l -> p x = true) -> List.filter p l = l.
Proof.
  induction l as [|x l IH]; simpl; intros H; trivial.
  rewrite (H x) by now left. f_equal. apply IH. intros y Hy. apply H. now right.
Qed.

Lemma filter_twice {A} (p : A -> bool) l :
  List.filter p (List.filter p l) = List.filter p l.
Proof.
  apply filter_all. intros x Hx. now apply filter_In in Hx.
Qed.

Lemma map_unmatched {A} (p : A -> bool) (f : A -> A) l :
  (forall x, In x l -> p x = false) ->
  map (fun x => if p x then f x else x) l = l.
Proof.
  induction l as [|x l IH]; simpl; intros H; trivial.
  rewrite (H x) by now left. f_equal. apply IH. intros y Hy. apply H. now right.
Qed.

Lemma account_where_false k r :
  pg.account_where k r = false <-> Account.account_number r <> k.
Proof. unfold pg.account_where. apply String.eqb_neq. Qed.

Lemma depositor_where_false k r :
  pg.depositor_where k r = false <-> Depositor.account_number r <> k.
Proof. unfold pg.depositor_where. apply String.eqb_neq. Qed.

Lemma without_absent k d : absent k d -> without k d = d.
Proof.
  intros [Ha Hd]. unfold without.
  rewrite !filter_all; [apply database_eta| |].
  - intros r Hr. apply negb_true_iff, depositor_where_false. now apply Hd.
  - intros r Hr. apply negb_true_iff, account_where_false. now apply Ha.
Qed.

Lemma absent_without k d : absent k (without k d).
Proof.
  split; simpl; intros r Hr; apply filter_In in Hr as [_ Hr];
    apply negb_true_iff in Hr.
  - now apply account_where_false.
  - now apply depositor_where_false.
Qed.

Lemma without_twice k d : without k (without k d) = without k d.
Proof. apply without_absent, absent_without. Qed.

(** The two [DELETE] statements in a row. *)
Lemma run_deletes_absent k d :
  absent k d ->
  pg.run (pg.DELETE_depositor k) d
    = Some (d, {| pg.rows := []; pg.rowcount := 0 |})
  /\ pg.run (pg.DELETE_account k) d
    = Some (d, {| pg.rows := []; pg.rowcount := 0 |}).
Proof.
  intros [Ha Hd]. simpl.
  rewrite (filter_none (pg.depositor_where k)), (filter_none (pg.account_where k)).
  - rewrite !filter_all.
    + now rewrite database_eta.
    + intros r Hr. apply negb_true_iff, account_where_false. now apply Ha.
    + intros r Hr. apply negb_true_iff, depositor_where_false. now apply Hd.
  - intros r Hr. apply account_where_false. now apply Ha.
  - intros r Hr. apply depositor_where_false. now apply Hd.
Qed.

Lemma run_update_unknown k b v d :
  pg.numeric_in b = Some v ->
  (forall r, In r (pg.account d) -> Account.account_number r <> k) ->
  pg.run (pg.UPDATE_account k b) d
    = Some (d, {| pg.rows := []; pg.rowcount := 0 |}).
Proof.
  intros Hv Ha. simpl. rewrite Hv. unfold pg.update_balance.
  rewrite map_unmatched, filter_none, database_eta; trivial;
    intros r Hr; apply account_where_false; now apply Ha.
Qed.

End Tables.

(** ** The order of the listing *)

Section Order.

Lemma leb_compare a b :
  String.leb a b = true <-> String_as_OT.lt a b \/ a = b.
Proof.
  unfold String.leb. split.
  - destruct (String.compare a b) eqn:H; try discriminate; intros _.
    + right. now apply String_as_OT.cmp_eq.
    + left. now apply String_as_OT.cmp_lt.
  - intros [H | ->].
    + apply String_as_OT.cmp_lt in H. unfold String_as_OT.cmp in H. now rewrite H.
    + assert (H : String.compare b b = Eq) by now apply String_as_OT.cmp_eq.
      now rewrite H.
Qed.

Lemma leb_trans a b c :
  String.leb a b = true -> String.leb b c = true -> String.leb a c = true.
Proof.
  rewrite !leb_compare. intros [H1 | ->] [H2 | ->]; auto.
  left. eapply String_as_OT.lt_trans; eauto.
Qed.

#[local] Instance desc_total : Total pg.desc.
Proof.
  intros r1 r2. unfold pg.desc.
  destruct (String.leb_total (Account.account_number r2) (Account.account_number r1)); auto.
Qed.

#[local] Instance desc_trans : Transitive pg.desc.
Proof. intros r1 r2 r3 H1 H2. unfold pg.desc in *. eapply leb_trans; eauto. Qed.

Lemma order_by_desc_sorted l : StronglySorted pg.desc (pg.order_by_desc l).
Proof. apply StronglySorted_merge_sort; typeclasses eauto. Qed.

Lemma order_by_desc_all l : Permutation (pg.order_by_desc l) l.
Proof. apply merge_sort_Permutation. Qed.

End Order.

(** ** The view functions on the database *)

Section Views.

Lemma healthy_cons n f fl tb snt :
  pg.healthy (S n) {| pg.tables := tb; pg.faults := f :: fl; pg.sent := snt |}
  <-> f = false
      /\ pg.healthy n {| pg.tables := tb; pg.faults := fl; pg.sent := snt |}.
Proof.
  unfold pg.healthy. simpl. split.
  - intros H. inversion H; subst. now split.
  - intros [-> H]. now constructor.
Qed.

Lemma account_delete_ok k s :
  pg.healthy 4 s ->
  account_delete k s
  = (Returns (redirect "account_index"),
     {| pg.tables := without k (pg.tables s);
        pg.faults := skipn 4 (pg.faults s);
        pg.sent := pg.sent s ++ delete_commands k |}).
Proof.
  destruct s as [tb fl snt]. intros H.
  destruct fl as [|f0 [|f1 [|f2 [|f3 fl]]]];
    repeat match goal with
      | H : pg.healthy (S _) _ |- _ => apply healthy_cons in H as [-> H]
      end;
    unfold account_delete, bind, pool_connection, transaction, execute, ret,
      pg.send, pg.record, delete_commands, without; simpl;
    rewrite <- ?app_assoc; reflexivity.
Qed.

(** A delete on which a command fails: the request ends in the database
    error, the committed tables are those before the request, and what
    was sent is a transaction that did not commit. *)
Lemma account_delete_failed k s :
  ~ pg.healthy 4 s ->
  fst (account_delete k s) = Raises DatabaseError
  /\ pg.tables (snd (account_delete k s)) = pg.tables s
  /\ exists cmds,
       pg.sent (snd (account_delete k s)) = pg.sent s ++ cmds
       /\ In cmds
            [ [pg.BEGIN];
              [pg.BEGIN; pg.Execute (pg.DELETE_depositor k); pg.ROLLBACK];
              [pg.BEGIN; pg.Execute (pg.DELETE_depositor k);
               pg.Execute (pg.DELETE_account k); pg.ROLLBACK];
              delete_commands k ].
Proof.
  destruct s as [tb fl snt]. intros H.
  assert (Hcases :
    (exists fl', fl = true :: fl')
    \/ (exists fl', fl = false :: true :: fl')
    \/ (exists fl', fl = false :: false :: true :: fl')
    \/ (exists fl', fl = false :: false :: false :: true :: fl')).
  { destruct fl as [|[] [|[] [|[] [|[] fl]]]]; eauto 10;
      exfalso; apply H; unfold pg.healthy; simpl; repeat constructor. }
  destruct Hcases as [[fl' ->] | [[fl' ->] | [[fl' ->] | [fl' ->]]]];
    unfold account_delete, bind, pool_connection, transaction, execute, ret,
      pg.send, pg.record, delete_commands; simpl;
    repeat match goal with
      | |- context [pg.next_fault ?x] => destruct (pg.next_fault x); simpl
      end;
    (split; [reflexivity | split; [reflexivity|]]);
    eexists; rewrite <- ?app_assoc; simpl; (split; [reflexivity|]); simpl; tauto.
Qed.

Lemma is_decimal_new s :
  (is_decimal s = Returns true <-> exists d, decimal.__new__ s = Returns d)
  /\ (is_decimal s = Returns false <-> decimal.__new__ s = Raises InvalidOperation).
Proof.
  unfold is_decimal. destruct (decimal.__new__ s) as [d|e] eqn:H.
  - repeat split; eauto; discriminate.
  - apply new_raises in H as ->. repeat split; try discriminate; trivial.
    intros [d Hd]. discriminate.
Qed.

Lemma is_decimal_total s :
  is_decimal s = Returns true \/ is_decimal s = Returns false.
Proof.
  unfold is_decimal. destruct (decimal.__new__ s) as [d|e] eqn:H; auto.
  apply new_raises in H as ->. auto.
Qed.

(** A request without the field fails in [request.form], before any
    check. *)
Lemma update_save_missing k form s :
  form !! "balance" = None ->
  account_update_save k form s = (Raises (BadRequestKeyError "balance"), s).
Proof.
  intros H. unfold account_update_save, bind, form_get. now rewrite H.
Qed.

Lemma update_save_empty k form s :
  form !! "balance" = Some "" ->
  account_update_save k form s = (Raises (ValueError "Balance is required."), s).
Proof.
  intros H. unfold account_update_save, bind, form_get. now rewrite H.
Qed.

Lemma update_save_not_decimal k form s b :
  form !! "balance" = Some b -> b <> "" -> is_decimal b = Returns false ->
  account_update_save k form s
  = (Raises (ValueError "Balance is required to be decimal."), s).
Proof.
  intros H Hb Hd. unfold account_update_save, bind, form_get, lift.
  rewrite H. unfold ret at 1. apply String.eqb_neq in Hb. rewrite Hb.
  unfold ret at 1. now rewrite Hd.
Qed.

(** The request once the field is present and a [Decimal]: the third
    check and the statement. *)
Lemma update_save_decimal k form s b d :
  form !! "balance" = Some b -> b <> "" -> decimal.__new__ b = Returns d ->
  account_update_save k form s
  = match decimal.__lt__zero d with
    | Raises e => (Raises e, s)
    | Returns true =>
        (Raises (ValueError "Balance is required to be positive."), s)
    | Returns false =>
        (if pg.next_fault s then Raises DatabaseError
         else Returns (redirect "account_index"),
         {| pg.tables :=
              if pg.next_fault s then pg.tables s
              else pg.update_balance k d (pg.tables s);
            pg.faults := tl (pg.faults s);
            pg.sent := pg.sent s ++ [pg.Execute (pg.UPDATE_account k b)] |})
    end.
Proof.
  intros H Hb Hd. unfold account_update_save, bind, form_get, lift.
  rewrite H. unfold ret at 1. apply String.eqb_neq in Hb. rewrite Hb.
  unfold ret at 1.
  assert (Hi : is_decimal b = Returns true) by (apply is_decimal_new; eauto).
  rewrite Hi, Hd. unfold negb, ret at 1.
  destruct (decimal.__lt__zero d) as [[|]|e]; trivial.
  unfold ret at 1, pool_connection, execute, pg.send, raise.
  cbn [pg.link pg.in_transaction].
  destruct (pg.next_fault s); cbn [pg.record pg.link pg.in_transaction fst snd].
  - reflexivity.
  - cbn [pg.run]. unfold pg.numeric_in. rewrite Hd. reflexivity.
Qed.

Lemma account_index_result s :
  account_index s
  = (if pg.next_fault s then Raises DatabaseError
     else Returns (render_template "account/index.html"
                     (accounts (pg.order_by_desc (pg.account (pg.tables s))))),
     {| pg.tables := pg.tables s;
        pg.faults := tl (pg.faults s);
        pg.sent := pg.sent s ++ [pg.Execute pg.SELECT_accounts] |}).
Proof.
  unfold account_index, bind, pool_connection, execute, pg.send, ret.
  cbn [pg.link pg.in_transaction].
  destruct (pg.next_fault s); reflexivity.
Qed.

End Views.

(** ** The limiter *)

Section Limiter.
Import limiter.

Lemma incr_other (k k' : key) (exp now : N) (s : storage) :
  k <> k' -> snd (incr k' exp now s) !! k = s !! k.
Proof. intros Hk. unfold incr. simpl. now rewrite lookup_insert_ne. Qed.

Lemma incr_live (k : key) (exp now : N) (s : storage) (c : nat) (e : N) :
  s !! k = Some (c, e) -> (now < e)%N ->
  incr k exp now s = (S c, <[k := (S c, e)]> s).
Proof.
  intros Hs Hlt. unfold incr, bump. rewrite Hs.
  destruct (N.leb_spec e now); [lia | reflexivity].
Qed.

Lemma key_for_inj (l l' : limit) (addr scope : string) :
  key_for l addr scope = key_for l' addr scope -> l = l'.
Proof.
  unfold key_for. intros H. injection H as Ha Hm Hp.
  destruct l as [a m p], l' as [a' m' p']. simpl in *. subst.
  f_equal. destruct p, p'; simpl in Hp; congruence.
Qed.

(** A counter at or above its limit, in its window, stays so through any
    hit at a time within the window. *)
Lemma hit_keeps (l : limit) (addr scope : string) (now : N)
    (s : storage) (k : key) (c : nat) (e : N) :
  s !! k = Some (c, e) -> (now < e)%N ->
  exists c', snd (hit l addr scope now s) !! k = Some (c', e) /\ c <= c'.
Proof.
  intros Hs Hlt. unfold hit.
  destruct (decide (key_for l addr scope = k)) as [<- | Hk].
  - rewrite (incr_live _ _ _ _ c e Hs Hlt). simpl.
    rewrite lookup_insert_eq. eauto.
  - pose proof (incr_other k _ (get_expiry l) now s (not_eq_sym Hk)) as Ho.
    destruct (incr _ _ _ _) as [n s']. simpl in *. rewrite Ho. eauto.
Qed.

Lemma hit_exceeded (l : limit) (addr scope : string) (now : N)
    (s : storage) (c : nat) (e : N) :
  s !! key_for l addr scope = Some (c, e) -> amount l <= c -> (now < e)%N ->
  fst (hit l addr scope now s) = false.
Proof.
  intros Hs Hc Hlt. unfold hit. rewrite (incr_live _ _ _ _ c e Hs Hlt).
  cbn [fst]. apply Nat.leb_gt. lia.
Qed.

Lemma evaluate_cons (l : limit) (ls : list limit) (addr scope : string)
    (now : N) (s : storage) :
  evaluate (l :: ls) addr scope now s
  = if fst (hit l addr scope now s)
    then evaluate ls addr scope now (snd (hit l addr scope now s))
    else (false, snd (hit l addr scope now s)).
Proof. cbn [evaluate]. now destruct (hit l addr scope now s). Qed.

Lemma evaluate_keeps (ls : list limit) (addr scope : string) (now : N)
    (s : storage) (k : key) (c : nat) (e : N) :
  s !! k = Some (c, e) -> (now < e)%N ->
  exists c', snd (evaluate ls addr scope now s) !! k = Some (c', e) /\ c <= c'.
Proof.
  revert s c. induction ls as [|l ls IH]; intros s c Hs Hlt; [simpl; eauto|].
  rewrite evaluate_cons.
  destruct (hit_keeps l addr scope now s k c e Hs Hlt) as (c1 & H1 & Hle).
  destruct (fst (hit l addr scope now s)); [|simpl; eauto].
  destruct (IH _ c1 H1 Hlt) as (c2 & H2 & Hle2). exists c2. split; trivial. lia.
Qed.

Lemma evaluate_exceeded (ls : list limit) (addr scope : string) (now : N)
    (s : storage) (l : limit) (c : nat) (e : N) :
  In l ls ->
  s !! key_for l addr scope = Some (c, e) -> amount l <= c -> (now < e)%N ->
  fst (evaluate ls addr scope now s) = false.
Proof.
  revert s c. induction ls as [|l' ls IH]; intros s c Hin Hs Hc Hlt; [easy|].
  rewrite evaluate_cons.
  destruct (decide (l' = l)) as [-> | Hne].
  - now rewrite (hit_exceeded l addr scope now s c e).
  - destruct Hin as [? | Hin]; [congruence|].
    destruct (hit_keeps l' addr scope now s _ c e Hs Hlt) as (c1 & H1 & Hle).
    destruct (fst (hit l' addr scope now s)); trivial.
    apply (IH _ c1); trivial. lia.
Qed.

(** The hits of an evaluation touch the counters of its limits only. *)
Lemma evaluate_other (ls : list limit) (addr scope : string) (now : N)
    (s : storage) (k : key) :
  (forall l, In l ls -> key_for l addr scope <> k) ->
  snd (evaluate ls addr scope now s) !! k = s !! k.
Proof.
  revert s. induction ls as [|l ls IH]; intros s Hk; [reflexivity|].
  rewrite evaluate_cons.
  assert (H1 : snd (hit l addr scope now s) !! k = s !! k).
  { unfold hit, incr. cbn [snd]. rewrite lookup_insert_ne; trivial.
    apply Hk. now left. }
  destruct (fst (hit l addr scope now s)); trivial.
  rewrite IH; trivial. intros l' Hl'. apply Hk. now right.
Qed.

Lemma hit_value (l : limit) (addr scope : string) (now : N) (s : storage) :
  hit l addr scope now s
  = (fst (bump (s !! key_for l addr scope) (get_expiry l) now) <=? amount l,
     <[key_for l addr scope :=
         bump (s !! key_for l addr scope) (get_expiry l) now]> s).
Proof. reflexivity. Qed.

(** An evaluation that lets the request through has counted it against
    each of the limits, none of which is exceeded by it. *)
Lemma evaluate_admitted (ls : list limit) (addr scope : string) (now : N)
    (s : storage) (l : limit) :
  List.NoDup ls -> In l ls ->
  fst (evaluate ls addr scope now s) = true ->
  snd (evaluate ls addr scope now s) !! key_for l addr scope
  = Some (bump (s !! key_for l addr scope) (get_expiry l) now)
  /\ fst (bump (s !! key_for l addr scope) (get_expiry l) now) <= amount l.
Proof.
  revert s. induction ls as [|l0 ls IH]; intros s Hnd Hin Hok; [easy|].
  inversion Hnd as [|? ? Hnotin Hnd']; subst.
  rewrite evaluate_cons in Hok |- *. rewrite hit_value in Hok |- *.
  cbn [fst snd] in Hok |- *.
  destruct (fst (bump (s !! key_for l0 addr scope) (get_expiry l0) now)
              <=? amount l0) eqn:Hle; [|discriminate].
  destruct Hin as [-> | Hin].
  - rewrite evaluate_other.
    + rewrite lookup_insert_eq. split; trivial. now apply Nat.leb_le.
    + intros l' Hl' Hk. apply key_for_inj in Hk. congruence.
  - assert (Hne : key_for l0 addr scope <> key_for l addr scope).
    { intros Hk. apply key_for_inj in Hk. congruence. }
    destruct (IH _ Hnd' Hin Hok) as [H1 H2].
    rewrite lookup_insert_ne in H1, H2 by exact Hne. now split.
Qed.

Lemma limits_of_NoDup (e : Endpoint.t) : List.NoDup (limits_of e).
Proof.
  destruct e; vm_compute; repeat constructor; simpl; intuition discriminate.
Qed.

End Limiter.

(** * The claims *)

(** ** C1 *)



(** ** C2 *)


(** ** C3 *)



(** ** C4 *)

(** C4: [is_decimal] returns true on "NaN" and on "Infinity". In the
    update handler "Infinity" passes the three checks and the [UPDATE] is
    sent with it, while on "NaN" the comparison with zero raises
    [InvalidOperation], which leaves the handler with nothing sent. *)
Theorem nan_and_infinity_pass_is_decimal
    (k : string) (form : gmap string string) (s : pg.server) :
  is_decimal "NaN" = Returns true
  /\ is_decimal "Infinity" = Returns true
  /\ passes_checks "Infinity"
  /\ pg.sent (snd (account_update_save k (<["balance" := "Infinity"]> form) s))
     = pg.sent s ++ [pg.Execute (pg.UPDATE_account k "Infinity")]
  /\ (exists d, decimal.__new__ "NaN" = Returns d
                /\ decimal.__lt__zero d = Raises InvalidOperation)
  /\ account_update_save k (<["balance" := "NaN"]> form) s
     = (Raises InvalidOperation, s).
Proof.
  assert (Hinf : exists d, decimal.__new__ "Infinity" = Returns d
                           /\ decimal.__lt__zero d = Returns false)
    by (eexists; split; vm_compute; reflexivity).
  assert (Hnan : exists d, decimal.__new__ "NaN" = Returns d
                           /\ decimal.__lt__zero d = Raises InvalidOperation)
    by (eexists; split; vm_compute; reflexivity).
  split; [reflexivity|]. split; [reflexivity|].
  split; [split; [discriminate | split; [reflexivity | exact Hinf]]|].
  split; [|split; [exact Hnan|]].
  - destruct Hinf as (d & Hd & Hlt).
    rewrite (update_save_decimal k _ s "Infinity" d (lookup_insert_eq _ _ _)
               ltac:(discriminate) Hd), Hlt.
    reflexivity.
  - destruct Hnan as (d & Hd & Hlt).
    rewrite (update_save_decimal k _ s "NaN" d (lookup_insert_eq _ _ _)
               ltac:(discriminate) Hd), Hlt.
    reflexivity.
Qed.

(** ** C5 *)



(** ** C6 *)



(** ** C7 *)



(** ** C8 *)

(** C8: on every database state the listing reads all the rows of the
    account table, no more and no fewer, and hands them to the template
    ordered by [account_number] descending (every row's key is at least
    the key of every row after it); the tables are left as they are. The
    rows are the answer unless the one statement fails. *)
Theorem account_index_lists_all_descending (s : pg.server) :
  exists rows : list Account.row,
    Permutation rows (pg.account (pg.tables s))
    /\ StronglySorted pg.desc rows
    /\ fst (account_index s)
       = (if pg.next_fault s then Raises DatabaseError
          else Returns (render_template "account/index.html" (accounts rows)))
    /\ pg.tables (snd (account_index s)) = pg.tables s.
Proof.
  exists (pg.order_by_desc (pg.account (pg.tables s))).
  rewrite account_index_result. simpl.
  repeat split.
  - apply order_by_desc_all.
  - apply order_by_desc_sorted.
Qed.

(** ** C9 *)

(** C9, as stated, does not hold: the default of 50 requests per hour and
    client is not enforced on the listing. Fifty-one requests for the
    listing from one address, two seconds apart, are all served. *)
Lemma fifty_per_hour_not_enforced_on_listing :
  ~ enforced_per_client 50 3600000.
Proof.
  intros H.
  specialize (H sample.state sample.listing_run "192.0.2.7" 0%N).
  assert (Hall : forallb (fun o => status_code o =? 200)
                         (fst (serve sample.listing_run sample.state)) = true)
    by (vm_compute; reflexivity).
  assert (Hex : Exists (fun o => o = Raises RateLimitExceeded)
                       (fst (serve sample.listing_run sample.state))).
  { apply H.
    - unfold sample.listing_run. apply Forall_map, Forall_forall.
      intros i Hi. apply elem_of_seq in Hi. simpl. repeat split; try lia.
      exists Endpoint.account_index, "". split; [reflexivity | discriminate].
    - refine (bool_decide_unpack _ _). vm_compute. exact I.
    - vm_compute. lia. }
  clear H. revert Hall Hex.
  generalize (fst (serve sample.listing_run sample.state)). intros os Hall Hex.
  apply Exists_exists in Hex as (o & Hin & ->).
  apply list_elem_of_In in Hin.
  rewrite forallb_forall in Hall. specialize (Hall _ Hin). discriminate Hall.
Qed.

(** C9, amended: the defaults are 200 requests per day and 50 per hour;
    they are counted per client address and per route, on the routes that
    carry no limit of their own (the update and the delete). The listing
    and the update view carry the limit of 1 request per second and client
    in place of the defaults, and the ping carries none. Whenever the check
    of the limits fails the request ends in the rate-limit error with the
    database server untouched; a client that has used up a limit of the
    route in a window still open is so refused, its counter staying used up
    for the rest of the window; a request that is let through is counted
    against every limit of its route; and no request changes a counter of
    another client address. *)
Theorem rate_limits_by_route
    (req : request) (st : app_state) (e : Endpoint.t) (k : string) :
  url_map (method req) (path req) = Some (e, k) ->
  limiter.default_limits
  = [ {| limiter.amount := 200; limiter.multiples := 1; limiter.per := limiter.day |};
      {| limiter.amount := 50; limiter.multiples := 1; limiter.per := limiter.hour |} ]
  /\ limits_of e
     = match e with
       | Endpoint.account_index | Endpoint.account_update_view => [one_per_second]
       | Endpoint.account_update_save | Endpoint.account_delete =>
           [ {| limiter.amount := 50; limiter.multiples := 1; limiter.per := limiter.hour |};
             {| limiter.amount := 200; limiter.multiples := 1; limiter.per := limiter.day |} ]
       | Endpoint.ping => []
       end
  /\ (fst (check_request_limit e req (counters st)) = false ->
        fst (full_dispatch_request req st) = Raises RateLimitExceeded
        /\ status_code (fst (full_dispatch_request req st)) = 429
        /\ db (snd (full_dispatch_request req st)) = db st)
  /\ (forall (l : limiter.limit) (c : nat) (t : N),
        In l (limits_of e) ->
        counters st !! limiter.key_for l (remote_addr req) (Endpoint.name e)
        = Some (c, t) ->
        limiter.amount l <= c ->
        (time req < t)%N ->
        fst (full_dispatch_request req st) = Raises RateLimitExceeded
        /\ db (snd (full_dispatch_request req st)) = db st
        /\ exists c',
             counters (snd (full_dispatch_request req st))
               !! limiter.key_for l (remote_addr req) (Endpoint.name e)
             = Some (c', t)
             /\ limiter.amount l <= c')
  /\ (fst (check_request_limit e req (counters st)) = true ->
        forall l : limiter.limit,
          In l (limits_of e) ->
          counters (snd (full_dispatch_request req st))
            !! limiter.key_for l (remote_addr req) (Endpoint.name e)
          = Some (limiter.bump
                    (counters st
                       !! limiter.key_for l (remote_addr req) (Endpoint.name e))
                    (limiter.get_expiry l) (time req)))
  /\ (forall (l : limiter.limit) (addr scope : string),
        addr <> remote_addr req ->
        counters (snd (full_dispatch_request req st)) !! limiter.key_for l addr scope
        = counters st !! limiter.key_for l addr scope).
Proof.
  intros Hroute.
  assert (Hcnt : counters (snd (full_dispatch_request req st))
                 = snd (check_request_limit e req (counters st))).
  { unfold full_dispatch_request. rewrite Hroute.
    destruct (check_request_limit e req (counters st)) as [[|] s']; simpl; trivial.
    now destruct (view_function e k req (db st)). }
  assert (Hrej : fst (check_request_limit e req (counters st)) = false ->
                 full_dispatch_request req st
                 = (Raises RateLimitExceeded,
                    {| counters := snd (check_request_limit e req (counters st));
                       db := db st |})).
  { intros Hf. unfold full_dispatch_request. rewrite Hroute.
    destruct (check_request_limit e req (counters st)) as [ok s'].
    simpl in Hf. now subst ok. }
  split; [reflexivity|]. split; [now destruct e|]. split; [|split; [|split]].
  - intros Hf. now rewrite (Hrej Hf).
  - intros l c t Hin Hc Hle Ht.
    assert (Hf : fst (check_request_limit e req (counters st)) = false)
      by (eapply evaluate_exceeded; eauto).
    rewrite (Hrej Hf). simpl. repeat split.
    destruct (evaluate_keeps (limits_of e) (remote_addr req) (Endpoint.name e)
                (time req) (counters st) _ c t Hc Ht) as (c' & Hc' & Hle').
    exists c'. split; [exact Hc' | lia].
  - intros Hok l Hin. rewrite Hcnt.
    now apply evaluate_admitted; [apply limits_of_NoDup | |].
  - intros l addr scope Hne. rewrite Hcnt. apply evaluate_other.
    intros l' _ Hk. unfold limiter.key_for in Hk. congruence.
Qed.

(** A second request for the listing, half a second after the first. *)
Lemma rate_limits_by_route_witness :
  fst (full_dispatch_request
         (sample.get ["accounts"] 500)
         (snd (full_dispatch_request (sample.get ["accounts"] 0) sample.state)))
  = Raises RateLimitExceeded.
Proof.
  destruct (rate_limits_by_route
              (sample.get ["accounts"] 500)
              (snd (full_dispatch_request (sample.get ["accounts"] 0) sample.state))
              Endpoint.account_index "")
    as (_ & _ & _ & H & _).
  - reflexivity.
  - destruct (H one_per_second 1 1000%N) as (Ho & _).
    + simpl. tauto.
    + vm_compute. reflexivity.
    + simpl. lia.
    + simpl. lia.
    + exact Ho.
Defined.

(** ** C10 *)

(** C10: a GET request for /ping is answered with status 200 and the JSON
    object with "message" set to "pong!" and "status" set to "success",
    whatever the form, the client, the time and the state of the
    application; no limit is checked for it and no counter and no table
    changes. *)
Theorem ping_pongs_unlimited
    (f : gmap string string) (addr : string) (t : N) (st : app_state) :
  let req := {| method := GET; path := ["ping"]; form := f;
                remote_addr := addr; time := t |} in
  full_dispatch_request req st
  = (Returns (jsonify [("message", "pong!"); ("status", "success")]), st)
  /\ status_code (fst (full_dispatch_request req st)) = 200
  /\ limits_of Endpoint.ping = []
  /\ check_request_limit Endpoint.ping req (counters st) = (true, counters st).
Proof.
  destruct st as [c d]. repeat split.
Qed.

(** * Further properties of the view functions *)

(** ** Facts about lists and tables *)

Section MoreTables.

Lemma head_filter_find {A} (p : A -> bool) (l : list A) :
  head (List.filter p l) = find p l.
Proof.
  induction l as [|x l IH]; simpl; trivial.
  destruct (p x); simpl; trivial.
Qed.

Lemma find_map_if {A} (p : A -> bool) (f : A -> A) (l : list A) :
  (forall x, p x = true -> p (f x) = true) ->
  find p (map (fun x => if p x then f x else x) l) = option_map f (find p l).
Proof.
  intros Hf. induction l as [|x l IH]; simpl; trivial.
  destruct (p x) eqn:Hx.
  - now rewrite (Hf x Hx).
  - now rewrite Hx.
Qed.

Lemma filter_comm {A} (p q : A -> bool) (l : list A) :
  List.filter p (List.filter q l) = List.filter q (List.filter p l).
Proof.
  induction l as [|x l IH]; simpl; trivial.
  destruct (p x) eqn:Hp, (q x) eqn:Hq; simpl; rewrite ?Hp, ?Hq, IH; trivial.
Qed.

Lemma filter_map_if {A} (p : A -> bool) (f : A -> A) (l : list A) :
  (forall x, p (f x) = p x) ->
  List.filter (fun x => negb (p x)) (map (fun x => if p x then f x else x) l)
  = List.filter (fun x => negb (p x)) l.
Proof.
  intros Hf. induction l as [|x l IH]; simpl; trivial.
  destruct (p x) eqn:Hx.
  - rewrite Hf, Hx. simpl. exact IH.
  - rewrite Hx. simpl. now rewrite IH.
Qed.

Lemma where_set_balance k v r :
  pg.account_where k (pg.set_balance v r) = pg.account_where k r.
Proof. reflexivity. Qed.

Lemma without_comm k1 k2 d : without k1 (without k2 d) = without k2 (without k1 d).
Proof.
  unfold without. simpl. f_equal; apply filter_comm.
Qed.

Lemma without_update k v d : without k (pg.update_balance k v d) = without k d.
Proof.
  unfold without, pg.update_balance. simpl. f_equal.
  apply filter_map_if. intros r. apply where_set_balance.
Qed.

Lemma update_twice k v d :
  pg.update_balance k v (pg.update_balance k v d) = pg.update_balance k v d.
Proof.
  unfold pg.update_balance. simpl. f_equal. rewrite map_map.
  apply map_ext. intros r.
  destruct (pg.account_where k r) eqn:Hr.
  - now rewrite where_set_balance, Hr.
  - now rewrite Hr.
Qed.

Lemma update_comm k1 k2 v1 v2 d :
  k1 <> k2 ->
  pg.update_balance k1 v1 (pg.update_balance k2 v2 d)
  = pg.update_balance k2 v2 (pg.update_balance k1 v1 d).
Proof.
  intros Hk. unfold pg.update_balance. simpl. f_equal. rewrite !map_map.
  apply map_ext. intros r.
  destruct (pg.account_where k1 r) eqn:H1, (pg.account_where k2 r) eqn:H2;
    rewrite ?where_set_balance, ?H1, ?H2; trivial.
  unfold pg.account_where in *. apply String.eqb_eq in H1, H2. congruence.
Qed.

Lemma healthy_add n m s s' :
  pg.faults s' = skipn n (pg.faults s) ->
  pg.healthy (n + m) s -> pg.healthy n s /\ pg.healthy m s'.
Proof.
  unfold pg.healthy. intros ->. generalize (pg.faults s). clear s s'.
  induction n as [|n IH]; intros l H.
  - split; [constructor | exact H].
  - destruct l as [|f l]; simpl in *.
    + split; [constructor|]. rewrite firstn_nil. constructor.
    + inversion H; subst. destruct (IH l) as [H1 H2]; trivial.
      split; trivial. now constructor.
Qed.

Lemma healthy_next n s : pg.healthy (S n) s -> pg.next_fault s = false.
Proof.
  unfold pg.healthy, pg.next_fault. destruct (pg.faults s); simpl; trivial.
  intros H. now inversion H.
Qed.

Lemma healthy_tl n s s' :
  pg.faults s' = tl (pg.faults s) -> pg.healthy (S n) s -> pg.healthy n s'.
Proof.
  unfold pg.healthy. intros ->. destruct (pg.faults s); simpl.
  - rewrite firstn_nil. constructor.
  - intros H. now inversion H.
Qed.

Lemma healthy_le n m s : n <= m -> pg.healthy m s -> pg.healthy n s.
Proof.
  unfold pg.healthy. intros Hle. generalize (pg.faults s). clear s.
  revert m Hle. induction n as [|n IH]; intros m Hle l H; [constructor|].
  destruct m as [|m]; [lia|]. destruct l as [|f l]; simpl in *; [constructor|].
  inversion H; subst. constructor; trivial. apply (IH m); [lia | trivial].
Qed.

End MoreTables.

(** ** What each view function does to the server *)

Section MoreViews.

Lemma account_update_view_result k s :
  account_update_view k s
  = (if pg.next_fault s then Raises DatabaseError
     else Returns (render_template "account/update.html"
                     (account (find (pg.account_where k)
                                    (pg.account (pg.tables s))))),
     {| pg.tables := pg.tables s;
        pg.faults := tl (pg.faults s);
        pg.sent := pg.sent s ++ [pg.Execute (pg.SELECT_account k)] |}).
Proof.
  unfold account_update_view, bind, pool_connection, execute, pg.send, ret.
  cbn [pg.link pg.in_transaction].
  destruct (pg.next_fault s); [reflexivity|].
  cbn [pg.run pg.record pg.link pg.in_transaction fst snd].
  unfold fetchone. cbn [pg.rows]. now rewrite head_filter_find.
Qed.

Lemma lt_zero_raises d e :
  decimal.__lt__zero d = Raises e -> e = InvalidOperation.
Proof.
  unfold decimal.__lt__zero, decimal._compare_check_nans.
  destruct (decimal._exp d); simpl; congruence.
Qed.

(** The update handler either fails before the database is reached, with
    the server as it was, or sends its statement with a balance that is a
    [Decimal] and not negative. *)
Lemma update_save_outcome k form s :
  (exists e, account_update_save k form s = (Raises e, s)
             /\ e <> RateLimitExceeded /\ e <> DatabaseError)
  \/ (exists b d,
        form !! "balance" = Some b /\ b <> ""
        /\ decimal.__new__ b = Returns d
        /\ decimal.__lt__zero d = Returns false
        /\ account_update_save k form s
           = (if pg.next_fault s then Raises DatabaseError
              else Returns (redirect "account_index"),
              {| pg.tables :=
                   if pg.next_fault s then pg.tables s
                   else pg.update_balance k d (pg.tables s);
                 pg.faults := tl (pg.faults s);
                 pg.sent := pg.sent s ++ [pg.Execute (pg.UPDATE_account k b)] |})).
Proof.
  destruct (form !! "balance") as [b|] eqn:Hform.
  - destruct (String.eqb_spec b "") as [-> | Hb].
    { left. rewrite (update_save_empty k form s Hform). eexists.
      repeat split; discriminate. }
    destruct (is_decimal_total b) as [Hd | Hd].
    + apply is_decimal_new in Hd as [d Hd].
      pose proof (update_save_decimal k form s b d Hform Hb Hd) as H.
      destruct (decimal.__lt__zero d) as [[|]|e] eqn:Hlt.
      * left. rewrite H. eexists. repeat split; discriminate.
      * right. exists b, d. now repeat split.
      * left. rewrite H. apply lt_zero_raises in Hlt as ->. eexists.
        repeat split; discriminate.
    + left. rewrite (update_save_not_decimal k form s b Hform Hb Hd). eexists.
      repeat split; discriminate.
  - left. rewrite (update_save_missing k form s Hform). eexists.
    repeat split; discriminate.
Qed.

Lemma account_delete_outcome k s :
  account_delete k s
  = (Returns (redirect "account_index"),
     {| pg.tables := without k (pg.tables s);
        pg.faults := skipn 4 (pg.faults s);
        pg.sent := pg.sent s ++ delete_commands k |})
  \/ (fst (account_delete k s) = Raises DatabaseError
      /\ pg.tables (snd (account_delete k s)) = pg.tables s).
Proof.
  destruct (decide (pg.healthy 4 s)) as [H | H].
  - left. now apply account_delete_ok.
  - right. destruct (account_delete_failed k s H) as (Ho & Ht & _). now split.
Qed.

(** Whatever the view function and the request, the tables move by one
    [table_step], and the rate-limit error is not raised by a view
    function. *)
Lemma view_function_step e k req s :
  table_step (pg.tables s) (pg.tables (snd (view_function e k req s)))
  /\ fst (view_function e k req s) <> Raises RateLimitExceeded.
Proof.
  destruct e; simpl.
  - rewrite account_index_result. simpl. split; [now left|].
    destruct (pg.next_fault s); discriminate.
  - rewrite account_update_view_result. simpl. split; [now left|].
    destruct (pg.next_fault s); discriminate.
  - destruct (update_save_outcome k (form req) s)
      as [(e & -> & He & _) | (b & d & _ & _ & Hd & Hlt & ->)]; simpl.
    + split; [now left | congruence].
    + destruct (pg.next_fault s); (split; [|discriminate]).
      * now left.
      * right. left. eauto.
  - destruct (account_delete_outcome k s) as [-> | [Ho ->]]; simpl.
    + split; [|discriminate]. right. right. eauto.
    + split; [now left|]. rewrite Ho. discriminate.
  - split; [now left | discriminate].
Qed.

End MoreViews.

(** ** The update view *)


(** ** The update *)



(** X3: when the [UPDATE] of a valid balance fails on the server, the
    request ends in the database error, answered with status 500, the
    statement was the only command sent, and no table has changed. *)
Theorem update_failure_changes_nothing
    (k : string) (form : gmap string string) (s : pg.server) (b : string) :
  form !! "balance" = Some b ->
  passes_checks b ->
  pg.next_fault s = true ->
  fst (account_update_save k form s) = Raises DatabaseError
  /\ status_code (fst (account_update_save k form s)) = 500
  /\ pg.tables (snd (account_update_save k form s)) = pg.tables s
  /\ pg.sent (snd (account_update_save k form s))
     = pg.sent s ++ [pg.Execute (pg.UPDATE_account k b)].
Proof.
  intros Hform (Hb & _ & d & Hd & Hlt) Hf.
  rewrite (update_save_decimal k form s b d Hform Hb Hd), Hlt, Hf. simpl.
  repeat split.
Qed.

(** The update of account 101 of the sample on a server that fails. *)
Lemma update_failure_changes_nothing_witness :
  fst (account_update_save "101" (sample.balance_form "750.50")
         (sample.server [true]))
  = Raises DatabaseError
  /\ pg.tables (snd (account_update_save "101" (sample.balance_form "750.50")
                       (sample.server [true])))
     = sample.bank.
Proof.
  destruct (update_failure_changes_nothing
              "101" (sample.balance_form "750.50") (sample.server [true]) "750.50")
    as (H1 & _ & H2 & _).
  - vm_compute. reflexivity.
  - split; [discriminate|]. split; [reflexivity|].
    eexists. split; vm_compute; reflexivity.
  - reflexivity.
  - split; assumption.
Defined.

(** X4: the error of a refused update names the first check that fails: a
    request without the field is a bad request (status 400); an empty
    field is "Balance is required."; a field that is not empty and not a
    decimal is "Balance is required to be decimal."; a decimal below zero
    is "Balance is required to be positive.". In each case the server is
    left exactly as it was. *)
Theorem update_error_names_first_failed_check
    (k : string) (form : gmap string string) (s : pg.server) :
  (form !! "balance" = None ->
     account_update_save k form s = (Raises (BadRequestKeyError "balance"), s)
     /\ status_code (fst (account_update_save k form s)) = 400)
  /\ (form !! "balance" = Some "" ->
        account_update_save k form s
        = (Raises (ValueError "Balance is required."), s))
  /\ (forall b, form !! "balance" = Some b -> b <> "" ->
                is_decimal b = Returns false ->
                account_update_save k form s
                = (Raises (ValueError "Balance is required to be decimal."), s))
  /\ (forall b d, form !! "balance" = Some b ->
                  decimal.__new__ b = Returns d ->
                  decimal.__lt__zero d = Returns true ->
                  account_update_save k form s
                  = (Raises (ValueError "Balance is required to be positive."), s)).
Proof.
  split; [|split; [|split]].
  - intros H. now rewrite (update_save_missing k form s H).
  - apply update_save_empty.
  - intros b. apply update_save_not_decimal.
  - intros b d Hform Hd Hlt.
    assert (Hb : b <> "") by (intros ->; vm_compute in Hd; discriminate).
    now rewrite (update_save_decimal k form s b d Hform Hb Hd), Hlt.
Qed.

(** X5: on a field that is the string of a finite decimal, the three checks
    of the update handler come to the sign of its value: when the value is
    at least zero (negative zero included) the [UPDATE] is sent, and when
    it is below zero the request is refused with nothing sent. *)
Theorem update_writes_exactly_nonnegative_values
    (k : string) (form : gmap string string) (s : pg.server)
    (b : string) (d : decimal.Decimal) (q : Q) :
  form !! "balance" = Some b ->
  decimal.__new__ b = Returns d ->
  decimal.value d = Some q ->
  (Qle 0 q ->
     pg.sent (snd (account_update_save k form s))
     = pg.sent s ++ [pg.Execute (pg.UPDATE_account k b)])
  /\ (Qlt q 0 ->
        account_update_save k form s
        = (Raises (ValueError "Balance is required to be positive."), s)).
Proof.
  intros Hform Hd Hq. destruct (lt_zero_value d q Hq) as [Hneg Hpos].
  assert (Hb : b <> "") by (intros ->; vm_compute in Hd; discriminate).
  rewrite (update_save_decimal k form s b d Hform Hb Hd). split.
  - intros H. apply Hpos in H. now rewrite H.
  - intros H. apply Hneg in H. now rewrite H.
Qed.

(** The balance "-0.0" is written: its value is zero. *)
Lemma update_writes_exactly_nonnegative_values_witness :
  pg.sent (snd (account_update_save "101" (sample.balance_form "-0.0")
                  (sample.server [])))
  = [pg.Execute (pg.UPDATE_account "101" "-0.0")].
Proof.
  destruct (update_writes_exactly_nonnegative_values
              "101" (sample.balance_form "-0.0") (sample.server []) "-0.0"
              {| decimal._sign := true; decimal._int := 0;
                 decimal._exp := decimal.Exp (-1) |}
              (Qopp (Qmult (inject_Z 0) (Qpower (inject_Z 10) (-1)))))
    as [H _].
  - vm_compute. reflexivity.
  - vm_compute. reflexivity.
  - reflexivity.
  - apply H. vm_compute. discriminate.
Defined.

(** ** How the view functions compose *)







Lemma account_update_save_ok k form s b :
  form !! "balance" = Some b -> passes_checks b -> pg.next_fault s = false ->
  exists d,
    decimal.__new__ b = Returns d
    /\ decimal.__lt__zero d = Returns false
    /\ account_update_save k form s
       = (Returns (redirect "account_index"),
          {| pg.tables := pg.update_balance k d (pg.tables s);
             pg.faults := tl (pg.faults s);
             pg.sent := pg.sent s ++ [pg.Execute (pg.UPDATE_account k b)] |}).
Proof.
  intros Hform (Hb & _ & d & Hd & Hlt) Hf. exists d.
  rewrite (update_save_decimal k form s b d Hform Hb Hd), Hlt, Hf. auto.
Qed.



(** X10: the updates of two different accounts, both going through, leave
    the same tables in either order. *)
Theorem updates_of_two_accounts_commute
    (k1 k2 : string) (form1 form2 : gmap string string) (s : pg.server)
    (b1 b2 : string) :
  k1 <> k2 ->
  form1 !! "balance" = Some b1 -> passes_checks b1 ->
  form2 !! "balance" = Some b2 -> passes_checks b2 ->
  pg.healthy 2 s ->
  pg.tables (snd (account_update_save k2 form2 (snd (account_update_save k1 form1 s))))
  = pg.tables (snd (account_update_save k1 form1 (snd (account_update_save k2 form2 s)))).
Proof.
  intros Hk Hf1 Hp1 Hf2 Hp2 Hh.
  pose proof (healthy_next 1 s Hh) as Hn.
  destruct (account_update_save_ok k1 form1 s b1 Hf1 Hp1 Hn) as (d1 & Hd1 & _ & ->).
  destruct (account_update_save_ok k2 form2 s b2 Hf2 Hp2 Hn) as (d2 & Hd2 & _ & ->).
  cbn [snd].
  match goal with
  | |- pg.tables (snd (account_update_save k2 form2 ?s1)) = _ =>
      destruct (account_update_save_ok k2 form2 s1 b2 Hf2 Hp2
                  (healthy_next 0 s1 (healthy_tl 1 s s1 eq_refl Hh)))
        as (d2' & Hd2' & _ & ->)
  end.
  match goal with
  | |- _ = pg.tables (snd (account_update_save k1 form1 ?s1)) =>
      destruct (account_update_save_ok k1 form1 s1 b1 Hf1 Hp1
                  (healthy_next 0 s1 (healthy_tl 1 s s1 eq_refl Hh)))
        as (d1' & Hd1' & _ & ->)
  end.
  assert (d1' = d1) by congruence. assert (d2' = d2) by congruence. subst.
  simpl. now apply update_comm, not_eq_sym.
Qed.

(** The updates of accounts 101 and 215 of the sample, in both orders. *)
Lemma updates_of_two_accounts_commute_witness :
  pg.tables (snd (account_update_save "215" (sample.balance_form "12")
                    (snd (account_update_save "101" (sample.balance_form "750.50")
                            (sample.server [])))))
  = pg.tables (snd (account_update_save "101" (sample.balance_form "750.50")
                      (snd (account_update_save "215" (sample.balance_form "12")
                              (sample.server []))))).
Proof.
  apply (updates_of_two_accounts_commute
           "101" "215" (sample.balance_form "750.50") (sample.balance_form "12")
           (sample.server []) "750.50" "12").
  - discriminate.
  - vm_compute. reflexivity.
  - split; [discriminate|]. split; [reflexivity|].
    eexists. split; vm_compute; reflexivity.
  - vm_compute. reflexivity.
  - split; [discriminate|]. split; [reflexivity|].
    eexists. split; vm_compute; reflexivity.
  - unfold pg.healthy. simpl. constructor.
Defined.

(** X11: an update does not bring a deleted account back, and an update
    before the delete of the same account makes no difference to what the
    delete leaves. *)
Theorem update_and_delete_of_one_account
    (k : string) (form : gmap string string) (s : pg.server) (b : string) :
  form !! "balance" = Some b ->
  passes_checks b ->
  pg.healthy 5 s ->
  pg.tables (snd (account_update_save k form (snd (account_delete k s))))
  = pg.tables (snd (account_delete k s))
  /\ pg.tables (snd (account_delete k (snd (account_update_save k form s))))
     = pg.tables (snd (account_delete k s)).
Proof.
  intros Hform Hp Hh.
  pose proof (healthy_le 4 5 s ltac:(lia) Hh) as H4.
  pose proof (healthy_next 4 s Hh) as Hn.
  rewrite (account_delete_ok k s H4). split.
  - match goal with
    | |- context [account_update_save k form ?s1] =>
        destruct (account_update_save_ok k form s1 b Hform Hp) as (d & Hd & _ & ->)
    end.
    { apply (healthy_next 0). now apply (healthy_add 4 1 s). }
    simpl.
    pose proof (absent_without k (pg.tables s)) as [Ha _].
    unfold pg.update_balance. rewrite map_unmatched.
    + apply database_eta.
    + intros r Hr. apply account_where_false. now apply Ha.
  - destruct (account_update_save_ok k form s b Hform Hp Hn) as (d & Hd & _ & ->).
    rewrite account_delete_ok.
    + simpl. apply without_update.
    + now apply (healthy_tl 4 s).
Qed.

(** Account 202 of the sample: deleted and then updated, updated and then
    deleted. *)
Lemma update_and_delete_of_one_account_witness :
  pg.tables (snd (account_update_save "202" (sample.balance_form "1")
                    (snd (account_delete "202" (sample.server [])))))
  = pg.tables (snd (account_delete "202" (sample.server []))).
Proof.
  destruct (update_and_delete_of_one_account
              "202" (sample.balance_form "1") (sample.server []) "1") as [H _].
  - vm_compute. reflexivity.
  - split; [discriminate|]. split; [reflexivity|].
    eexists. split; vm_compute; reflexivity.
  - unfold pg.healthy. simpl. constructor.
  - exact H.
Defined.

(** ** What no request does *)

Section Requests.

Lemma dispatch_step req st :
  table_step (pg.tables (db st))
             (pg.tables (db (snd (full_dispatch_request req st)))).
Proof.
  unfold full_dispatch_request.
  destruct (url_map (method req) (path req)) as [[e k]|]; [|now left].
  destruct (check_request_limit e req (counters st)) as [[|] s']; [|now left].
  pose proof (view_function_step e k req (db st)) as [H _].
  now destruct (view_function e k req (db st)).
Qed.

Lemma url_map_GET p e k :
  url_map GET p = Some (e, k) ->
  e = Endpoint.account_index \/ e = Endpoint.account_update_view
  \/ e = Endpoint.ping.
Proof.
  unfold url_map.
  repeat match goal with
    | |- context [match ?x with _ => _ end] => destruct x
    end;
    intros H; try discriminate H; injection H as <- _; auto.
Qed.

Lemma after_cons r reqs st :
  after (r :: reqs) st = after reqs (snd (full_dispatch_request r st)).
Proof.
  unfold after. simpl.
  destruct (full_dispatch_request r st) as [o st1]. simpl.
  now destruct (serve reqs st1).
Qed.

Lemma get_request_changes_no_table req st :
  method req = GET ->
  pg.tables (db (snd (full_dispatch_request req st))) = pg.tables (db st).
Proof.
  intros Hm. unfold full_dispatch_request. rewrite Hm.
  destruct (url_map GET (path req)) as [[e k]|] eqn:Hroute; [|reflexivity].
  destruct (check_request_limit e req (counters st)) as [[|] s']; [|reflexivity].
  apply url_map_GET in Hroute as [-> | [-> | ->]]; simpl.
  - now rewrite account_index_result.
  - now rewrite account_update_view_result.
  - reflexivity.
Qed.

Lemma table_step_keys t t' :
  table_step t t' ->
  incl (map Account.account_number (pg.account t'))
       (map Account.account_number (pg.account t))
  /\ incl (pg.depositor t') (pg.depositor t)
  /\ length (pg.account t') <= length (pg.account t)
  /\ length (pg.depositor t') <= length (pg.depositor t).
Proof.
  intros [-> | [(k & v & -> & _) | (k & ->)]].
  - repeat split; auto using incl_refl.
  - simpl. repeat split; auto using incl_refl.
    + rewrite map_map. intros x Hx. apply in_map_iff in Hx as (r & <- & Hr).
      apply in_map_iff. exists r. split; trivial.
      now destruct (pg.account_where k r).
    + now rewrite length_map.
  - simpl. repeat split.
    + intros x Hx. apply in_map_iff in Hx as (r & <- & Hr).
      apply filter_In in Hr as [Hr _]. now apply in_map.
    + intros x Hx. now apply filter_In in Hx.
    + apply filter_length_le.
    + apply filter_length_le.
Qed.

Lemma table_step_balances t t' :
  table_step t t' -> balances_ok t -> balances_ok t'.
Proof.
  unfold balances_ok.
  intros [-> | [(k & v & -> & Hv) | (k & ->)]] H; trivial; simpl.
  - apply List.Forall_forall. intros r Hr. apply in_map_iff in Hr as (r0 & <- & Hr0).
    rewrite List.Forall_forall in H.
    destruct (pg.account_where k r0); [exact Hv | now apply H].
  - apply List.Forall_forall. intros r Hr. apply filter_In in Hr as [Hr _].
    rewrite List.Forall_forall in H. now apply H.
Qed.

End Requests.

(** X12: no GET request changes a table: whatever the state, the tables
    after a run of GET requests are the tables before it. *)
Theorem get_requests_change_no_table (reqs : list request) (st : app_state) :
  Forall (fun r => method r = GET) reqs ->
  pg.tables (db (after reqs st)) = pg.tables (db st).
Proof.
  intros H. revert st. induction H as [|r reqs Hr _ IH]; intros st; [reflexivity|].
  rewrite after_cons, IH. now apply get_request_changes_no_table.
Qed.

(** Four requests that read the sample. *)
Lemma get_requests_change_no_table_witness :
  pg.tables (db (after scenario.reads sample.state)) = sample.bank.
Proof.
  apply (get_requests_change_no_table scenario.reads sample.state).
  unfold scenario.reads. repeat constructor.
Defined.

(** X13: no request creates a row: after any run of requests, every
    account number of the account table was there before the run, every
    depositor row was there before the run, and neither table has grown. *)
Theorem no_request_adds_a_row (reqs : list request) (st : app_state) :
  incl (map Account.account_number (pg.account (pg.tables (db (after reqs st)))))
       (map Account.account_number (pg.account (pg.tables (db st))))
  /\ incl (pg.depositor (pg.tables (db (after reqs st))))
          (pg.depositor (pg.tables (db st)))
  /\ length (pg.account (pg.tables (db (after reqs st))))
     <= length (pg.account (pg.tables (db st)))
  /\ length (pg.depositor (pg.tables (db (after reqs st))))
     <= length (pg.depositor (pg.tables (db st))).
Proof.
  revert st. induction reqs as [|r reqs IH]; intros st.
  - unfold after. simpl. repeat split; auto using incl_refl.
  - rewrite after_cons.
    destruct (IH (snd (full_dispatch_request r st))) as (H1 & H2 & H3 & H4).
    destruct (table_step_keys _ _ (dispatch_step r st)) as (K1 & K2 & K3 & K4).
    repeat split.
    + eapply incl_tran; eauto.
    + eapply incl_tran; eauto.
    + lia.
    + lia.
Qed.

(** X14: no request writes a negative balance or a NaN: if every balance
    of the account table passes the third check of the update handler
    before a run of requests, every balance passes it after the run. *)
Theorem balances_stay_nonnegative (reqs : list request) (st : app_state) :
  balances_ok (pg.tables (db st)) ->
  balances_ok (pg.tables (db (after reqs st))).
Proof.
  revert st. induction reqs as [|r reqs IH]; intros st H; [exact H|].
  rewrite after_cons. apply IH.
  exact (table_step_balances _ _ (dispatch_step r st) H).
Qed.

(** The scenario on the sample. *)
Lemma balances_stay_nonnegative_witness :
  balances_ok (pg.tables (db (after scenario.run sample.state))).
Proof.
  apply (balances_stay_nonnegative scenario.run sample.state).
  unfold balances_ok. simpl. repeat constructor.
Defined.

(** ** The limiter over runs of requests *)

Section MoreLimiter.
Import limiter.

Lemma bump_positive (o : option (nat * N)) (expiry now : N) :
  1 <= fst (bump o expiry now).
Proof.
  unfold bump. destruct o as [[c e]|]; [destruct (e <=? now)%N|]; simpl; lia.
Qed.

Lemma evaluate_counted (ls : list limit) (addr scope : string) (now : N)
    (s : storage) :
  counted s -> counted (snd (evaluate ls addr scope now s)).
Proof.
  revert s. induction ls as [|l ls IH]; intros s Hs; [exact Hs|].
  rewrite evaluate_cons, hit_value. cbn [fst snd].
  assert (H1 : counted (<[key_for l addr scope :=
                           bump (s !! key_for l addr scope) (get_expiry l) now]> s)).
  { intros k c t. rewrite lookup_insert. case_decide.
    - intros Heq. injection Heq as Heq.
      pose proof (bump_positive (s !! key_for l addr scope) (get_expiry l) now) as Hp.
      rewrite Heq in Hp. exact Hp.
    - apply Hs. }
  destruct (_ <=? _); [now apply IH | exact H1].
Qed.

Lemma evaluate_true_iff (ls : list limit) (addr scope : string) (now : N)
    (s : storage) :
  List.NoDup ls ->
  (fst (evaluate ls addr scope now s) = true
   <-> forall l, In l ls -> has_room l addr scope now s).
Proof.
  intros Hnd. split.
  - intros Hok l Hin. now apply (evaluate_admitted ls addr scope now s l).
  - revert s. induction Hnd as [|l0 ls Hnotin Hnd IH]; intros s Hroom; [reflexivity|].
    rewrite evaluate_cons, hit_value. cbn [fst snd].
    assert (H0 : has_room l0 addr scope now s) by (apply Hroom; now left).
    unfold has_room in H0. apply Nat.leb_le in H0. rewrite H0.
    apply IH. intros l Hl. unfold has_room.
    rewrite lookup_insert_ne.
    + apply Hroom. now right.
    + intros Hk. apply key_for_inj in Hk. congruence.
Qed.

Lemma limits_positive (e : Endpoint.t) (l : limit) :
  In l (limits_of e) -> 1 <= amount l.
Proof.
  destruct e; vm_compute; intuition (subst; simpl; lia).
Qed.

Lemma dispatch_counters req st e k :
  url_map (method req) (path req) = Some (e, k) ->
  counters (snd (full_dispatch_request req st))
  = snd (check_request_limit e req (counters st)).
Proof.
  intros Hroute. unfold full_dispatch_request. rewrite Hroute.
  destruct (check_request_limit e req (counters st)) as [[|] s']; simpl; trivial.
  now destruct (view_function e k req (db st)).
Qed.

Lemma dispatch_refused_iff req st e k :
  url_map (method req) (path req) = Some (e, k) ->
  (fst (full_dispatch_request req st) = Raises RateLimitExceeded
   <-> fst (check_request_limit e req (counters st)) = false).
Proof.
  intros Hroute. unfold full_dispatch_request. rewrite Hroute.
  destruct (check_request_limit e req (counters st)) as [[|] s']; simpl.
  - pose proof (view_function_step e k req (db st)) as [_ H].
    destruct (view_function e k req (db st)) as [o w]. simpl in *.
    split; [contradiction | discriminate].
  - split; trivial.
Qed.

Lemma dispatch_counted req st :
  counted (counters st) -> counted (counters (snd (full_dispatch_request req st))).
Proof.
  intros H.
  destruct (url_map (method req) (path req)) as [[e k]|] eqn:Hroute.
  - rewrite (dispatch_counters req st e k Hroute). now apply evaluate_counted.
  - unfold full_dispatch_request. now rewrite Hroute.
Qed.

Lemma after_counted reqs st :
  counted (counters st) -> counted (counters (after reqs st)).
Proof.
  revert st. induction reqs as [|r reqs IH]; intros st H; [exact H|].
  rewrite after_cons. apply IH. now apply dispatch_counted.
Qed.

Lemma fresh_counted d : counted (counters (fresh d)).
Proof. intros k c t H. simpl in H. now rewrite lookup_empty in H. Qed.

Lemma dispatch_keeps req st (k : key) (c : nat) (t : N) :
  counters st !! k = Some (c, t) -> (time req < t)%N ->
  exists c', counters (snd (full_dispatch_request req st)) !! k = Some (c', t)
             /\ c <= c'.
Proof.
  intros Hk Ht.
  destruct (url_map (method req) (path req)) as [[e a]|] eqn:Hroute.
  - rewrite (dispatch_counters req st e a Hroute). now apply evaluate_keeps.
  - unfold full_dispatch_request. rewrite Hroute. eauto.
Qed.

Lemma after_keeps reqs st (k : key) (c : nat) (t : N) :
  counters st !! k = Some (c, t) ->
  Forall (fun r => (time r < t)%N) reqs ->
  exists c', counters (after reqs st) !! k = Some (c', t) /\ c <= c'.
Proof.
  intros Hk H. revert st c Hk.
  induction H as [|r reqs Hr _ IH]; intros st c Hk; [eauto|].
  rewrite after_cons.
  destruct (dispatch_keeps r st k c t Hk Hr) as (c1 & H1 & Hle).
  destruct (IH _ c1 H1) as (c2 & H2 & Hle2). exists c2. split; trivial. lia.
Qed.

End MoreLimiter.

(** X15: a routed request is refused by the limiter exactly when some
    limit of its route has no room for it: it is served (its view function
    runs) if and only if every limit of the route has room for one more hit
    of the client on that route at that time. In particular a client whose
    counters of the route are all missing or past the end of their window
    is served. *)
Theorem request_served_iff_room
    (req : request) (st : app_state) (e : Endpoint.t) (k : string) :
  url_map (method req) (path req) = Some (e, k) ->
  (fst (full_dispatch_request req st) <> Raises RateLimitExceeded
   <-> forall l, In l (limits_of e) ->
                 has_room l (remote_addr req) (Endpoint.name e) (time req)
                          (counters st))
  /\ ((forall l, In l (limits_of e) ->
                 match counters st
                         !! limiter.key_for l (remote_addr req) (Endpoint.name e)
                 with
                 | Some (_, t) => (t <= time req)%N
                 | None => True
                 end) ->
      full_dispatch_request req st
      = (fst (view_function e k req (db st)),
         {| counters := snd (check_request_limit e req (counters st));
            db := snd (view_function e k req (db st)) |})).
Proof.
  intros Hroute.
  pose proof (evaluate_true_iff (limits_of e) (remote_addr req) (Endpoint.name e)
                (time req) (counters st) (limits_of_NoDup e)) as Hiff.
  fold (check_request_limit e req (counters st)) in Hiff.
  split.
  - rewrite <- Hiff, (dispatch_refused_iff req st e k Hroute).
    now destruct (fst (check_request_limit e req (counters st))).
  - intros Hold.
    assert (Hok : fst (check_request_limit e req (counters st)) = true).
    { apply Hiff. intros l Hl. specialize (Hold l Hl). unfold has_room, limiter.bump.
      pose proof (limits_positive e l Hl) as Hpos.
      destruct (counters st !! _) as [[c t]|]; simpl; trivial.
      apply N.leb_le in Hold. now rewrite Hold. }
    unfold full_dispatch_request. rewrite Hroute.
    destruct (check_request_limit e req (counters st)) as [ok s']. simpl in *.
    subst ok. now destruct (view_function e k req (db st)).
Qed.

(** The first request for the listing of the sample is served. *)
Lemma request_served_iff_room_witness :
  fst (full_dispatch_request (sample.get ["accounts"] 0) sample.state)
  <> Raises RateLimitExceeded.
Proof.
  destruct (request_served_iff_room (sample.get ["accounts"] 0) sample.state
              Endpoint.account_index "") as [H _].
  - reflexivity.
  - apply H. intros l [<- | []]. vm_compute. lia.
Defined.

(** X16: the limit of one request per second on the listing and on the
    update view: in any run of the application from its start, once a
    request of a client for one of these two routes has been served, every
    request of that client for the same route that arrives less than a
    second after it is refused, whatever requests were served before and
    whatever requests arrive in between. *)
Theorem one_request_per_second
    (d : pg.server) (before between : list request) (r1 r2 : request)
    (e : Endpoint.t) (k1 k2 : string) :
  e = Endpoint.account_index \/ e = Endpoint.account_update_view ->
  url_map (method r1) (path r1) = Some (e, k1) ->
  url_map (method r2) (path r2) = Some (e, k2) ->
  remote_addr r2 = remote_addr r1 ->
  Forall (fun r => (time r < time r1 + 1000)%N) between ->
  (time r2 < time r1 + 1000)%N ->
  fst (full_dispatch_request r1 (after before (fresh d)))
  <> Raises RateLimitExceeded ->
  fst (full_dispatch_request r2
         (after between
            (snd (full_dispatch_request r1 (after before (fresh d))))))
  = Raises RateLimitExceeded.
Proof.
  intros He Hr1 Hr2 Haddr Hmid Ht2 Hserved.
  set (st := after before (fresh d)) in *.
  assert (Hcnt : counted (counters st)) by apply after_counted, fresh_counted.
  assert (Hl : limits_of e = [one_per_second]) by (destruct He as [-> | ->]; reflexivity).
  set (key := limiter.key_for one_per_second (remote_addr r1) (Endpoint.name e)).
  assert (H1 : counters (snd (full_dispatch_request r1 st)) !! key
               = Some (1, (time r1 + 1000)%N)).
  { assert (Hok : fst (check_request_limit e r1 (counters st)) = true).
    { destruct (fst (check_request_limit e r1 (counters st))) eqn:Hc; trivial.
      apply (dispatch_refused_iff r1 st e k1 Hr1) in Hc. contradiction. }
    rewrite (dispatch_counters r1 st e k1 Hr1).
    destruct (evaluate_admitted (limits_of e) (remote_addr r1) (Endpoint.name e)
                (time r1) (counters st) one_per_second (limits_of_NoDup e))
      as [Hv Hroom]; [rewrite Hl; now left | exact Hok |].
    unfold check_request_limit, key. rewrite Hv. f_equal.
    fold key in Hroom |- *. unfold limiter.bump in *.
    destruct (counters st !! key) as [[c t]|] eqn:Hkey; [|reflexivity].
    destruct (t <=? time r1)%N; [reflexivity|].
    simpl in Hroom. pose proof (Hcnt key c t Hkey). lia. }
  destruct (after_keeps between _ key 1 (time r1 + 1000)%N H1 Hmid)
    as (c' & Hc' & Hle).
  apply (dispatch_refused_iff r2 _ e k2 Hr2).
  apply (evaluate_exceeded (limits_of e) (remote_addr r2) (Endpoint.name e)
           (time r2) _ one_per_second c' (time r1 + 1000)%N).
  - rewrite Hl. now left.
  - rewrite Haddr. exact Hc'.
  - simpl. lia.
  - exact Ht2.
Qed.

(** Two requests for the listing of the sample, 0.9 seconds apart, with a
    ping and a request for an update view in between. *)
Lemma one_request_per_second_witness :
  fst (full_dispatch_request (sample.get ["accounts"] 900)
         (after [sample.get ["ping"] 100; sample.get ["accounts"; "101"; "update"] 500]
            (snd (full_dispatch_request (sample.get ["accounts"] 0)
                    (after [] (fresh (sample.server [])))))))
  = Raises RateLimitExceeded.
Proof.
  apply (one_request_per_second (sample.server []) []
           [sample.get ["ping"] 100; sample.get ["accounts"; "101"; "update"] 500]
           (sample.get ["accounts"] 0) (sample.get ["accounts"] 900)
           Endpoint.account_index "" "").
  - now left.
  - reflexivity.
  - reflexivity.
  - reflexivity.
  - repeat constructor.
  - reflexivity.
  - vm_compute. discriminate.
Defined.

(** X17: the limits are counted per route: a request leaves the counters
    of every other route as they are, for every client and every limit. *)
Theorem limits_are_counted_per_route
    (req : request) (st : app_state) (e : Endpoint.t) (k : string)
    (l : limiter.limit) (addr scope : string) :
  url_map (method req) (path req) = Some (e, k) ->
  scope <> Endpoint.name e ->
  counters (snd (full_dispatch_request req st)) !! limiter.key_for l addr scope
  = counters st !! limiter.key_for l addr scope.
Proof.
  intros Hroute Hscope. rewrite (dispatch_counters req st e k Hroute).
  apply evaluate_other. intros l' _ Hk. unfold limiter.key_for in Hk. congruence.
Qed.

(** A request for the listing leaves the counter of the update view. *)
Lemma limits_are_counted_per_route_witness :
  counters (snd (full_dispatch_request (sample.get ["accounts"] 0) sample.state))
    !! limiter.key_for one_per_second "192.0.2.7" "account_update_view"
  = None.
Proof.
  rewrite (limits_are_counted_per_route
             (sample.get ["accounts"] 0) sample.state Endpoint.account_index ""
             one_per_second "192.0.2.7" "account_update_view").
  - reflexivity.
  - reflexivity.
  - discriminate.
Defined.

(** ** The order of the listing *)

Section MoreOrder.

(** The order of two account numbers on the listing. *)
Let key_desc : relation string := fun a b => String.leb b a = true.

#[local] Instance key_desc_antisym : AntiSymm (=) key_desc.
Proof. intros a b H1 H2. unfold key_desc in *. now apply String.leb_antisym. Qed.

Lemma listed_keys_sorted l :
  StronglySorted key_desc (map Account.account_number (pg.order_by_desc l)).
Proof.
  pose proof (order_by_desc_sorted l) as H.
  induction H as [|r rows Hs IH Hr]; simpl; constructor; trivial.
  clear -Hr. induction Hr as [|r' rows' H _ IH]; simpl; constructor; trivial.
Qed.

Lemma listed_keys_unique l1 l2 :
  Permutation l1 (map Account.account_number (pg.order_by_desc l2)) ->
  StronglySorted key_desc l1 ->
  l1 = map Account.account_number (pg.order_by_desc l2).
Proof.
  intros Hp Hs. apply (StronglySorted_unique key_desc); trivial.
  apply listed_keys_sorted.
Qed.

Lemma listed_keys l1 l2 :
  Permutation (map Account.account_number l1) (map Account.account_number l2) ->
  map Account.account_number (pg.order_by_desc l1)
  = map Account.account_number (pg.order_by_desc l2).
Proof.
  intros Hp. apply listed_keys_unique; [|apply listed_keys_sorted].
  rewrite (Permutation_map _ (order_by_desc_all l1)), Hp.
  symmetry. apply Permutation_map, order_by_desc_all.
Qed.

Lemma filter_sorted {A} (R : relation A) (p : A -> bool) l :
  StronglySorted R l -> StronglySorted R (List.filter p l).
Proof.
  induction 1 as [|x l Hs IH Hx]; simpl; [constructor|].
  destruct (p x); trivial. constructor; trivial.
  apply List.Forall_forall. intros y Hy. apply filter_In in Hy as [Hy _].
  rewrite List.Forall_forall in Hx. now apply Hx.
Qed.

Lemma filter_permutation {A} (p : A -> bool) l1 l2 :
  Permutation l1 l2 -> Permutation (List.filter p l1) (List.filter p l2).
Proof.
  induction 1 as [|x l1 l2 H IH|x y l|l1 l2 l3 H1 IH1 H2 IH2]; simpl.
  - constructor.
  - destruct (p x); [now constructor | trivial].
  - destruct (p x), (p y); try reflexivity. constructor.
  - now transitivity (List.filter p l2).
Qed.

Lemma map_filter_keys k l :
  map Account.account_number (List.filter (fun r => negb (pg.account_where k r)) l)
  = List.filter (fun a => negb (String.eqb a k)) (map Account.account_number l).
Proof.
  induction l as [|r l IH]; simpl; trivial.
  unfold pg.account_where at 1.
  destruct (String.eqb (Account.account_number r) k); simpl; now rewrite IH.
Qed.

Lemma listed_keys_without k l :
  map Account.account_number
      (pg.order_by_desc (List.filter (fun r => negb (pg.account_where k r)) l))
  = List.filter (fun a => negb (String.eqb a k))
                (map Account.account_number (pg.order_by_desc l)).
Proof.
  symmetry. apply listed_keys_unique.
  - rewrite <- map_filter_keys.
    apply Permutation_map.
    rewrite (filter_permutation _ _ _ (order_by_desc_all l)).
    symmetry. apply order_by_desc_all.
  - apply filter_sorted, listed_keys_sorted.
Qed.

End MoreOrder.

(** X18: the order of the listing depends only on the account numbers of the
    table: two servers whose account tables hold the same account numbers,
    in whatever physical order and with whatever balances, list them in the
    same sequence. *)
Theorem listing_order_is_canonical
    (s1 s2 : pg.server) (rows1 rows2 : list Account.row) :
  Permutation (map Account.account_number (pg.account (pg.tables s1)))
              (map Account.account_number (pg.account (pg.tables s2))) ->
  fst (account_index s1)
  = Returns (render_template "account/index.html" (accounts rows1)) ->
  fst (account_index s2)
  = Returns (render_template "account/index.html" (accounts rows2)) ->
  map Account.account_number rows1 = map Account.account_number rows2.
Proof.
  intros Hp. rewrite !account_index_result. cbn [fst].
  destruct (pg.next_fault s1); [discriminate|].
  destruct (pg.next_fault s2); [discriminate|].
  intros H1 H2. injection H1 as <-. injection H2 as <-.
  now apply listed_keys.
Qed.

(** The sample bank and the same table stored in reverse order. *)
Lemma listing_order_is_canonical_witness :
  map Account.account_number (pg.order_by_desc (pg.account sample.bank))
  = map Account.account_number (pg.order_by_desc (rev (pg.account sample.bank))).
Proof.
  apply (listing_order_is_canonical
           (sample.server [])
           {| pg.tables := {| pg.account := rev (pg.account sample.bank);
                              pg.depositor := pg.depositor sample.bank |};
              pg.faults := []; pg.sent := [] |}).
  - apply Permutation_map, Permutation_rev.
  - reflexivity.
  - reflexivity.
Defined.

(** X19: an update that goes through leaves the listing in the same order:
    the listing after it shows the account numbers the listing before it
    showed, in the same sequence. *)
Theorem update_keeps_listing_order
    (k : string) (form : gmap string string) (s : pg.server) (b : string)
    (rows rows' : list Account.row) :
  form !! "balance" = Some b ->
  passes_checks b ->
  pg.next_fault s = false ->
  fst (account_index s)
  = Returns (render_template "account/index.html" (accounts rows)) ->
  fst (account_index (snd (account_update_save k form s)))
  = Returns (render_template "account/index.html" (accounts rows')) ->
  map Account.account_number rows' = map Account.account_number rows.
Proof.
  intros Hform Hb Hf.
  destruct (account_update_save_ok k form s b Hform Hb Hf) as (d & _ & _ & ->).
  rewrite !account_index_result, Hf. cbn [fst snd pg.tables].
  intros H1 H2. injection H1 as <-.
  match type of H2 with
  | context [pg.next_fault ?x] => destruct (pg.next_fault x); [discriminate|]
  end.
  injection H2 as <-.
  apply listed_keys. simpl. rewrite map_map.
  erewrite map_ext; [reflexivity|].
  intros r. now destruct (pg.account_where k r).
Qed.

(** The update of account 101 of the sample to 750.50. *)
Lemma update_keeps_listing_order_witness :
  map Account.account_number
      (pg.order_by_desc
         (pg.account
            (pg.tables (snd (account_update_save
                               "101" (sample.balance_form "750.50")
                               (sample.server []))))))
  = map Account.account_number (pg.order_by_desc (pg.account sample.bank)).
Proof.
  apply (update_keeps_listing_order
           "101" (sample.balance_form "750.50") (sample.server []) "750.50").
  - vm_compute. reflexivity.
  - split; [discriminate|]. split; [reflexivity|].
    eexists. split; vm_compute; reflexivity.
  - reflexivity.
  - reflexivity.
  - vm_compute. reflexivity.
Defined.

(** X20: after a delete that went through, the listing is the listing before
    it with the account taken out: the other account numbers, in the same
    sequence. *)
Theorem delete_takes_account_off_listing
    (k : string) (s : pg.server) (rows rows' : list Account.row) :
  pg.healthy 4 s ->
  fst (account_index s)
  = Returns (render_template "account/index.html" (accounts rows)) ->
  fst (account_index (snd (account_delete k s)))
  = Returns (render_template "account/index.html" (accounts rows')) ->
  map Account.account_number rows'
  = List.filter (fun a => negb (String.eqb a k))
                (map Account.account_number rows).
Proof.
  intros H. rewrite (account_delete_ok k s H), !account_index_result.
  rewrite (healthy_next 3 s H). cbn [fst snd pg.tables].
  destruct (pg.next_fault _); [discriminate|].
  intros H1 H2. injection H1 as <-. injection H2 as <-.
  apply listed_keys_without.
Qed.

(** The delete of account 202 of the sample. *)
Lemma delete_takes_account_off_listing_witness :
  map Account.account_number
      (pg.order_by_desc
         (pg.account (pg.tables (snd (account_delete "202" (sample.server []))))))
  = List.filter (fun a => negb (String.eqb a "202"))
                (map Account.account_number
                   (pg.order_by_desc (pg.account sample.bank))).
Proof.
  apply (delete_takes_account_off_listing "202" (sample.server [])).
  - vm_compute. constructor.
  - reflexivity.
  - vm_compute. reflexivity.
Defined.
